(** * Cafe Curator: the cache and request-gate controller of [app.js]

    A shallow embedding of the client script [src/app.js]: the location
    cache, the per-key result cache, the request gate ([inFlight],
    [lastRequestAt]), the [setBusy] watchdog and the per-type saved lists;
    then [escapeHtml], the data of a card, the theme, and the two routes
    of the proxy [src/backend/server.js] with what the script makes of
    their replies.

    Modelling conventions.
    - [Date.now()] yields an integer number of milliseconds: [Z].  One
      event-loop task (a click, a geolocation callback, the continuation
      of a [fetch], a timer) runs to completion, and every [Date.now()]
      it performs is the one reading [now] the task is given.
    - Latitudes, longitudes and ratings are IEEE doubles in the script.
      A finite double is an exact rational, and the script only rounds
      ([toFixed]) and compares them (the sign of a difference), so they
      are [Q] here.
    - [localStorage] is one map from strings to JSON text.  Its keys fall
      into families with distinct prefixes (["cachedLocation"],
      ["nearby:..."], ["saved:..."]); each family is a typed component of
      [Storage], and [JSON.parse (JSON.stringify v)] is [v].
    - The DOM is present only through what the script tests: whether
      [#findBtn] exists and its [disabled] flag.  Calls to the rendering
      functions are recorded in a log rather than modelled as markup,
      and neither they nor [localStorage] throw.
    - A [setTimeout] of 8000 ms is a deadline 8000 later on the clock
      that [Date.now()] reads.
    - The callbacks the browser still owes (geolocation answers, [fetch]
      responses, the timer) are part of the state, so that a sequence
      of events is checked to be one the page can meet. *)

From Stdlib Require Import ZArith QArith Qabs Lia Lqa Ascii.
From stdpp Require Import gmap strings list fin_maps pretty sorting.

Open Scope Z_scope.

(** ** Constants (app.js, lines 3-8) *)

Definition CACHE_MINUTES : Z := 10.
Definition RESULT_TTL : Z := 5 * 60 * 1000.
Definition SEARCH_RADIUS_M : Z := 1500.
Definition REQUEST_GAP_MS : Z := 2500.
Definition WATCHDOG_MS : Z := 8000.

(** ** Data *)

(** A place record as the proxy returns it (backend/server.js, the
    [items] mapping): [rating] is a number or [null]. *)
Record Place := mkPlace {
  place_id : string;
  name : string;
  rating : option Q;
  vicinity : string;
  photo : option string
}.

(** [const rating = place.rating ?? 'N/A'] in [displayCards]. *)
Inductive ShownRating :=
| RatingNum (q : Q)
| RatingNA.

(** The object handed to [savePlace]. *)
Record SavedRecord := mkSaved {
  saved_name : string;
  saved_place_id : string;
  saved_photo : string;
  saved_rating : ShownRating
}.

(** The parsed value of the ["cachedLocation"] item. *)
Record LocEntry := mkLoc {
  lat : Q;
  lng : Q;
  timestamp : option Z
}.

(** The parsed value of a ["nearby:..."] item; a field is [None] when it
    is missing (or [null]) in the stored object. *)
Record ResEntry := mkRes {
  ts : option Z;
  data : option (list Place)
}.

Record Storage := mkStorage {
  cachedLocation : option LocEntry;
  nearby : gmap string ResEntry;
  saved : gmap string (list SavedRecord)
}.

(** ** Number.prototype.toFixed(3) and the cache key (lines 122-126) *)

(** [x < 0] on the double. *)
Definition is_negative (x : Q) : bool := Qnum x <? 0.

(** The integer [n] for which [n / 1000 - |x|] is as close to zero as
    possible, the larger one when there are two (ECMAScript's wording):
    [floor (1000 * |x| + 1/2)]. *)
Definition nearest_milli (x : Q) : Z :=
  let a := Z.abs (Qnum x) in
  let d := Z.pos (Qden x) in
  (2 * 1000 * a + d) `div` (2 * d).

Fixpoint zeros (k : nat) : string :=
  match k with
  | O => EmptyString
  | S k' => "0" +:+ zeros k'
  end.

(** The digits of [n], left-padded with zeros to four characters, with a
    point before the last three. *)
Definition fixed3_digits (n : Z) : string :=
  let m := pretty n in
  let k := String.length m in
  let m := if (k <=? 3)%nat then zeros (4 - k) +:+ m else m in
  let k := String.length m in
  String.substring 0 (k - 3) m +:+ "." +:+ String.substring (k - 3) 3 m.

(** [x.toFixed(3)] for [|x| < 10^21] (any latitude or longitude). *)
Definition toFixed3 (x : Q) : string :=
  (if is_negative x then "-" else EmptyString) +:+ fixed3_digits (nearest_milli x).

Definition cacheKey (lat lng : Q) (type : string) : string :=
  let rLat := toFixed3 lat in
  let rLng := toFixed3 lng in
  "nearby:" +:+ type +:+ ":" +:+ rLat +:+ "," +:+ rLng.

(** The key derivation as the specification words it, for comparison
    with [cacheKey]: the coordinate truncated to three decimals, and
    [type + ":" + round3(lat) + "," + round3(lng)]. *)
Definition spec_truncate_milli (x : Q) : Z :=
  (Z.abs (Qnum x) * 1000) `div` Z.pos (Qden x).

Definition spec_round3 (x : Q) : string :=
  (if is_negative x then "-" else EmptyString) +:+ fixed3_digits (spec_truncate_milli x).

Definition spec_key (type : string) (lat lng : Q) : string :=
  type +:+ ":" +:+ spec_round3 lat +:+ "," +:+ spec_round3 lng.

(** ** The result cache (lines 127-134) *)

(** [t && now - t < ttl] on a timestamp field: [undefined] and [0] are
    falsy. *)
Definition fresh (t : option Z) (now ttl : Z) : bool :=
  match t with
  | Some t => negb (t =? 0) && (now - t <? ttl)
  | None => false
  end.

(** [JSON.parse(localStorage.getItem(key) || '{}')]. *)
Definition parsedResults (key : string) (st : Storage) : ResEntry :=
  default (mkRes None None) (nearby st !! key).

Definition getCachedResults (now : Z) (key : string) (st : Storage)
  : option (list Place) :=
  let c := parsedResults key st in
  if fresh (ts c) now RESULT_TTL then data c else None.

Definition setCachedResults (now : Z) (key : string) (d : list Place)
  (st : Storage) : Storage :=
  mkStorage (cachedLocation st)
            (<[key := mkRes (Some now) (Some d)]> (nearby st))
            (saved st).

(** ** Sorting by rating (line 172) *)

(** [p.rating || 0]. *)
Definition ratingOr0 (p : Place) : Q :=
  match rating p with
  | Some r => r
  | None => 0%Q
  end.

(** The comparator [(a, b) => (b.rating||0) - (a.rating||0)]. *)
Definition byRating (a b : Place) : Q := (ratingOr0 b - ratingOr0 a)%Q.

(** [Array.prototype.sort] is stable and, for a comparator that is a
    consistent ordering, its result is the one stable arrangement; it is
    computed here by insertion.  [x] stood before every element of [l]
    in the input, so it moves behind [y] only when [cmp x y > 0]. *)
Fixpoint sort_insert (cmp : Place → Place → Q) (x : Place) (l : list Place)
  : list Place :=
  match l with
  | [] => [x]
  | y :: l' =>
      if Qle_bool (cmp x y) 0 then x :: l else y :: sort_insert cmp x l'
  end.

Definition sortWith (cmp : Place → Place → Q) (l : list Place) : list Place :=
  foldr (sort_insert cmp) [] l.

(** ** The saved lists (lines 304-316 and 353-356) *)

Definition savedKey (type : string) : string := "saved:" +:+ type.

(** [JSON.parse(localStorage.getItem(key) || '[]')]. *)
Definition parsedSaved (key : string) (st : Storage) : list SavedRecord :=
  default [] (saved st !! key).

Definition setSaved (key : string) (l : list SavedRecord) (st : Storage)
  : Storage :=
  mkStorage (cachedLocation st) (nearby st) (<[key := l]> (saved st)).

(** [p => p.place_id === id]. *)
Definition hasId (id : string) (p : SavedRecord) : bool :=
  bool_decide (saved_place_id p = id).

(** ** The application state *)

Inductive ViewMode := FindView | SavedView.

Inductive Message :=
| GeoUnsupported
| GeoUnavailable
| FailedWith (msg : string)
| NoPlaces
| FetchFailed.

(** What a task does to the outside, most recent first in [log]. *)
Inductive Effect :=
| EView (mode : ViewMode)
| EGeoRequest (now : Z)
| EFetch (now : Z) (type : string) (lat lng : Q)
| EDisplay (places : list Place)
| ERenderEmpty (m : Message)
| EAlertSaved (place : SavedRecord) (type : string)
| EAlertAlready (place : SavedRecord) (type : string)
| EShowSaved (l : list SavedRecord).

(** [storage], [currentType], [inFlight] and [lastRequestAt] are the
    script's own variables.  [findBtn] is [None] when the page has no
    [#findBtn], else its [disabled] flag.  [busyTimer] is the deadline of
    the timer held in [window.__busyTimer], [None] once cleared or fired.
    [geolocation] tells whether [navigator.geolocation] exists.
    [pendingGeo] and [pendingFetch] list the callbacks the browser still
    owes: for each [getCurrentPosition] the [now] its closure captured,
    for each [fetch] the [key] its continuation captured. *)
Record App := mkApp {
  storage : Storage;
  currentType : string;
  inFlight : bool;
  lastRequestAt : Z;
  findBtn : option bool;
  busyTimer : option Z;
  geolocation : bool;
  pendingGeo : list Z;
  pendingFetch : list string;
  log : list Effect
}.

Definition with_storage (f : Storage → Storage) (s : App) : App :=
  mkApp (f (storage s)) (currentType s) (inFlight s) (lastRequestAt s)
        (findBtn s) (busyTimer s) (geolocation s) (pendingGeo s)
        (pendingFetch s) (log s).

Definition with_currentType (v : string) (s : App) : App :=
  mkApp (storage s) v (inFlight s) (lastRequestAt s)
        (findBtn s) (busyTimer s) (geolocation s) (pendingGeo s)
        (pendingFetch s) (log s).

Definition with_inFlight (b : bool) (s : App) : App :=
  mkApp (storage s) (currentType s) b (lastRequestAt s)
        (findBtn s) (busyTimer s) (geolocation s) (pendingGeo s)
        (pendingFetch s) (log s).

Definition with_lastRequestAt (t : Z) (s : App) : App :=
  mkApp (storage s) (currentType s) (inFlight s) t
        (findBtn s) (busyTimer s) (geolocation s) (pendingGeo s)
        (pendingFetch s) (log s).

Definition with_button (b : option bool) (t : option Z) (s : App) : App :=
  mkApp (storage s) (currentType s) (inFlight s) (lastRequestAt s)
        b t (geolocation s) (pendingGeo s) (pendingFetch s) (log s).

Definition with_pendingGeo (l : list Z) (s : App) : App :=
  mkApp (storage s) (currentType s) (inFlight s) (lastRequestAt s)
        (findBtn s) (busyTimer s) (geolocation s) l (pendingFetch s) (log s).

Definition with_pendingFetch (l : list string) (s : App) : App :=
  mkApp (storage s) (currentType s) (inFlight s) (lastRequestAt s)
        (findBtn s) (busyTimer s) (geolocation s) (pendingGeo s) l (log s).

Definition emit (e : Effect) (s : App) : App :=
  mkApp (storage s) (currentType s) (inFlight s) (lastRequestAt s)
        (findBtn s) (busyTimer s) (geolocation s) (pendingGeo s)
        (pendingFetch s) (e :: log s).

(** A page as the script finds it when it loads (lines 7, 8 and 11). *)
Definition initial (st : Storage) (type : string) (btn geo : bool) : App :=
  mkApp st type false 0 (if btn then Some false else None) None geo [] [] [].

(** ** setBusy (lines 186-201) *)

(** Without the button nothing happens.  With it, the flag is set, the
    old timer is cleared, and for [isBusy] a new one is armed that fires
    8000 ms later. *)
Definition setBusy (isBusy : bool) (now : Z) (s : App) : App :=
  match findBtn s with
  | None => s
  | Some _ =>
      with_button (Some isBusy)
                  (if isBusy then Some (now + WATCHDOG_MS) else None) s
  end.

(** The timer's callback: [btn.disabled = false; inFlight = false].  It
    exists only where [setBusy] found the button. *)
Definition watchdog (s : App) : App :=
  with_inFlight false (with_button (Some false) None s).

(** ** The gate (lines 93 and 145) *)

Definition gateClosed (now : Z) (s : App) : bool :=
  inFlight s || (now - lastRequestAt s <? REQUEST_GAP_MS).

(** ** useLocation (lines 136-183) *)

(** Up to the first [await]: the cache lookup, the gate, and the call of
    [fetch]. *)
Definition useLocation (now : Z) (lat lng : Q) (s : App) : App :=
  let key := cacheKey lat lng (currentType s) in
  match getCachedResults now key (storage s) with
  | Some cached => setBusy false now (emit (EDisplay cached) s)
  | None =>
      if gateClosed now s then s
      else
        let s := with_inFlight true s in
        let s := with_lastRequestAt now s in
        let s := setBusy true now s in
        with_pendingFetch (key :: pendingFetch s)
          (emit (EFetch now (currentType s) lat lng) s)
  end.

(** How the awaited [fetch] ends. *)
Inductive Response :=
| NetworkError
| HttpError (msg : string)
| BadBody
| OkBody (results : option (list Place)).

(** The rest of [useLocation], run when the response is there.
    [NetworkError]: [fetch] rejects.  [HttpError msg]: [!res.ok], with
    the message of line 162.  [BadBody]: [res.ok] but the body is not
    JSON, so [json] is [null] and [json.results] throws.  [OkBody r]:
    [r] is [json.results] when that is an array.  The [finally] block
    runs in every case. *)
Definition fetchDone (key : string) (r : Response) (now : Z) (s : App) : App :=
  let s :=
    match r with
    | NetworkError => emit (ERenderEmpty FetchFailed) s
    | HttpError msg => emit (ERenderEmpty (FailedWith msg)) s
    | BadBody => emit (ERenderEmpty FetchFailed) s
    | OkBody r =>
        let results := default [] r in
        match results with
        | [] => emit (ERenderEmpty NoPlaces) s
        | _ :: _ =>
            let sorted := sortWith byRating results in
            emit (EDisplay sorted)
                 (with_storage (setCachedResults now key sorted) s)
        end
    end in
  setBusy false now (with_inFlight false s).

(** ** getLocation (lines 89-119) *)

Definition setLocation (c : LocEntry) (st : Storage) : Storage :=
  mkStorage (Some c) (nearby st) (saved st).

(** [navigator.geolocation.getCurrentPosition(...)]: the success closure
    keeps [now]. *)
Definition requestPosition (now : Z) (s : App) : App :=
  with_pendingGeo (now :: pendingGeo s) (emit (EGeoRequest now) s).

Definition getLocation (now : Z) (s : App) : App :=
  let s := emit (EView FindView) s in
  if gateClosed now s then s
  else
    let cached :=
      match cachedLocation (storage s) with
      | Some c => if fresh (timestamp c) now (CACHE_MINUTES * 60 * 1000)
                  then Some c else None
      | None => None
      end in
    match cached with
    | Some c => useLocation now (lat c) (lng c) s
    | None =>
        if geolocation s then requestPosition now s
        else emit (ERenderEmpty GeoUnsupported) s
    end.

(** The success callback; [now0] is the [now] of the [getLocation] call
    that asked, [now] the time the callback runs. *)
Definition geoSuccess (now0 : Z) (lat lng : Q) (now : Z) (s : App) : App :=
  useLocation now lat lng
    (with_storage (setLocation (mkLoc lat lng (Some now0))) s).

(** The error callback. *)
Definition geoError (now : Z) (s : App) : App :=
  emit (ERenderEmpty GeoUnavailable) (setBusy false now s).

(** [window.onTypeChange] (lines 21-27). *)
Definition onTypeChange (val : string) (now : Z) (s : App) : App :=
  getLocation now (emit (EView FindView) (with_currentType val s)).

(** ** savePlace, showSaved and its swipe-left handler *)

Definition savePlace (place : SavedRecord) (s : App) : App :=
  let key := savedKey (currentType s) in
  let l := parsedSaved key (storage s) in
  match List.find (hasId (saved_place_id place)) l with
  | None =>
      emit (EAlertSaved place (currentType s))
           (with_storage (setSaved key (l ++ [place])) s)
  | Some _ => emit (EAlertAlready place (currentType s)) s
  end.

Definition removeSaved (id : string) (s : App) : App :=
  let key := savedKey (currentType s) in
  let arr := parsedSaved key (storage s) in
  let arr := List.filter (λ p, negb (hasId id p)) arr in
  with_storage (setSaved key arr) s.

Definition showSaved (s : App) : App :=
  emit (EShowSaved (parsedSaved (savedKey (currentType s)) (storage s)))
       (emit (EView SavedView) s).

(** ** The event loop *)

Inductive Event :=
| Click (now : Z)
| TypeChange (val : string) (now : Z)
| GeoOk (now0 : Z) (lat lng : Q) (now : Z)
| GeoFail (now0 : Z) (now : Z)
| FetchDone (key : string) (r : Response) (now : Z)
| Watchdog (now : Z)
| SwipeSave (place : SavedRecord)
| SwipeRemove (id : string)
| ShowSaved.

(** Drops the first occurrence of [x]; [None] when there is none. *)
Fixpoint take_pending {A} `{EqDecision A} (x : A) (l : list A)
  : option (list A) :=
  match l with
  | [] => None
  | y :: l' =>
      if decide (x = y) then Some l'
      else match take_pending x l' with
           | Some r => Some (y :: r)
           | None => None
           end
  end.

(** One task.  A callback runs only if the browser owes it: a geolocation
    answer for a pending request, a response for a pending [fetch], the
    watchdog for an armed timer whose deadline has come. *)
Definition step (e : Event) (s : App) : option App :=
  match e with
  | Click now => Some (getLocation now s)
  | TypeChange val now => Some (onTypeChange val now s)
  | GeoOk now0 lat lng now =>
      match take_pending now0 (pendingGeo s) with
      | Some l => Some (geoSuccess now0 lat lng now (with_pendingGeo l s))
      | None => None
      end
  | GeoFail now0 now =>
      match take_pending now0 (pendingGeo s) with
      | Some l => Some (geoError now (with_pendingGeo l s))
      | None => None
      end
  | FetchDone key r now =>
      match take_pending key (pendingFetch s) with
      | Some l => Some (fetchDone key r now (with_pendingFetch l s))
      | None => None
      end
  | Watchdog now =>
      match busyTimer s with
      | Some d => if d <=? now then Some (watchdog s) else None
      | None => None
      end
  | SwipeSave place => Some (savePlace place s)
  | SwipeRemove id => Some (removeSaved id s)
  | ShowSaved => Some (showSaved s)
  end.

Fixpoint run (evs : list Event) (s : App) : option App :=
  match evs with
  | [] => Some s
  | e :: evs' =>
      match step e s with
      | Some s' => run evs' s'
      | None => None
      end
  end.

(** The upstream calls a log records, as the times they were made. *)
Fixpoint fetchTimes (l : list Effect) : list Z :=
  match l with
  | [] => []
  | EFetch t _ _ _ :: l' => t :: fetchTimes l'
  | _ :: l' => fetchTimes l'
  end.

(** * Vocabulary of the properties *)

(** ** Shorthands for the branches of [getLocation] *)

Definition view (s : App) : App := emit (EView FindView) s.

(** What [getLocation] does once the cached location is out of play. *)
Definition askProvider (now : Z) (s : App) : App :=
  if geolocation s then requestPosition now (view s)
  else emit (ERenderEmpty GeoUnsupported) (view s).

(** Whether [getLocation] finds a cached location it can use. *)
Definition locationFresh (now : Z) (s : App) : bool :=
  match cachedLocation (storage s) with
  | Some c => fresh (timestamp c) now (CACHE_MINUTES * 60 * 1000)
  | None => false
  end.

(** ** Order of the results *)

(** [a] may stand before [b]: its rating, 0 when missing, is no smaller. *)
Definition rated_before (a b : Place) : Prop := (ratingOr0 b <= ratingOr0 a)%Q.

Definition sameRating (v : Q) (p : Place) : bool := Qeq_bool (ratingOr0 p) v.

(** Every stored result list, and every list handed to [displayCards],
    is in order. *)
Definition stored_sorted (st : Storage) : Prop :=
  ∀ k e d, nearby st !! k = Some e → data e = Some d →
           StronglySorted rated_before d.

Definition shown_sorted (l : list Effect) : Prop :=
  ∀ d, EDisplay d ∈ l → StronglySorted rated_before d.

Definition sorted_inv (s : App) : Prop :=
  stored_sorted (storage s) ∧ shown_sorted (log s).

(** ** Saved lists *)

Definition ids (l : list SavedRecord) : list string := map saved_place_id l.

(** The list of the current category. *)
Definition currentSaved (s : App) : list SavedRecord :=
  parsedSaved (savedKey (currentType s)) (storage s).

(** No list in the storage holds an id twice. *)
Definition saved_unique (st : Storage) : Prop :=
  ∀ k l, saved st !! k = Some l → NoDup (ids l).

(** ** Upstream calls and the gate *)

(** The events that call neither [getLocation] nor [useLocation]. *)
Definition no_search (e : Event) : bool :=
  match e with
  | Click _ | TypeChange _ _ | GeoOk _ _ _ _ => false
  | GeoFail _ _ | FetchDone _ _ _ | Watchdog _
  | SwipeSave _ | SwipeRemove _ | ShowSaved => true
  end.

(** From [s] to [s'] either no upstream call was made and [lastRequestAt]
    stands, or exactly one was, through an open gate, at the time now in
    [lastRequestAt]. *)
Definition gate_step (s s' : App) : Prop :=
  (lastRequestAt s' = lastRequestAt s
   ∧ fetchTimes (log s') = fetchTimes (log s))
  ∨ (inFlight s = false
     ∧ REQUEST_GAP_MS ≤ lastRequestAt s' - lastRequestAt s
     ∧ fetchTimes (log s') = lastRequestAt s' :: fetchTimes (log s)).

(** Upstream calls, most recent first, each at least the gap after all
    earlier ones. *)
Fixpoint spaced (l : list Z) : Prop :=
  match l with
  | [] => True
  | t :: l' => Forall (λ u, REQUEST_GAP_MS ≤ t - u) l' ∧ spaced l'
  end.

Definition gate_inv (s : App) : Prop :=
  spaced (fetchTimes (log s))
  ∧ Forall (λ u, u ≤ lastRequestAt s) (fetchTimes (log s)).

(** ** The timer and the button *)

(** A timer is armed only on a page that has the button, so the button
    the watchdog enables is there. *)
Definition button_inv (s : App) : Prop := findBtn s = None → busyTimer s = None.

(** ** Sample data for the closed instances *)

Definition emptyStorage : Storage := mkStorage None ∅ ∅.

Definition place_a : Place :=
  mkPlace "p-a" "Alma" (Some (9 # 2)%Q) "1 Main St" None.
Definition place_b : Place :=
  mkPlace "p-b" "Bruno" None "2 Main St" None.
Definition place_c : Place :=
  mkPlace "p-c" "Coda" (Some 3%Q) "3 Main St" (Some "/api/photo?ref=c&max=520").

Definition here_lat : Q := (400001 # 10000)%Q.
Definition here_lng : Q := (-739999 # 10000)%Q.

Definition page : App := initial emptyStorage "cafe" true true.

Definition page_located : App :=
  with_lastRequestAt 1005000
    (with_storage (setLocation (mkLoc here_lat here_lng (Some 1000000))) page).

Definition storage_zero_ts : Storage :=
  setLocation (mkLoc here_lat here_lng (Some 0))
    (mkStorage None {[ "k" := mkRes (Some 0) (Some [place_a]) ]} ∅).

Definition two_searches : list Event :=
  [Click 1000000; GeoOk 1000000 here_lat here_lng 1001000;
   FetchDone (cacheKey here_lat here_lng "cafe") (OkBody (Some [])) 1001300;
   Click 1004000].

Definition one_search : list Event :=
  [Click 1000000; GeoOk 1000000 here_lat here_lng 1001000;
   FetchDone (cacheKey here_lat here_lng "cafe")
             (OkBody (Some [place_a; place_b; place_c])) 1001300;
   Click 1004000].

Definition two_clicks_one_search : list Event :=
  [Click 1000000; Click 1000100;
   GeoOk 1000000 here_lat here_lng 1001000;
   FetchDone (cacheKey here_lat here_lng "cafe")
             (OkBody (Some [place_a; place_c])) 1001300].

Definition page_busy : App :=
  with_inFlight true
    (with_lastRequestAt 1000000
       (with_storage
          (setCachedResults 1000000 (cacheKey here_lat here_lng "cafe")
                            [place_a; place_c])
          page)).

Definition saved_a : SavedRecord :=
  mkSaved "Alma" "p-a" "https://via.placeholder.com/520x300?text=No+Image"
          (RatingNum (9 # 2)%Q).
Definition saved_a_again : SavedRecord :=
  mkSaved "Alma Cafe" "p-a" "/api/photo?ref=a&max=520" RatingNA.
Definition saved_c : SavedRecord :=
  mkSaved "Coda" "p-c" "/api/photo?ref=c&max=520" (RatingNum 3%Q).

Definition page_saved : App :=
  with_storage (setSaved (savedKey "cafe") [saved_a]) page.

Definition some_swipes : list Event :=
  [SwipeSave saved_a; SwipeSave saved_c; SwipeSave saved_a_again;
   SwipeRemove "p-c"; SwipeSave saved_c].

Definition page_no_button : App := initial emptyStorage "cafe" false true.

(** * The rest of the script *)

(** ** escapeHtml (lines 250-255) *)

(** [s.replaceAll(c, r)] for a one-character pattern and a replacement
    free of [$].  The characters replaced are ASCII, so working on the
    UTF-8 bytes of the text gives the bytes of the result. *)
Fixpoint replaceAll (c : ascii) (r : string) (s : string) : string :=
  match s with
  | EmptyString => EmptyString
  | String x s' =>
      if Ascii.eqb x c then r +:+ replaceAll c r s'
      else String x (replaceAll c r s')
  end.

Definition dquote : ascii := "034"%char.

Definition escapeHtml (s : string) : string :=
  replaceAll "'" "&#039;"
    (replaceAll dquote "&quot;"
       (replaceAll ">" "&gt;"
          (replaceAll "<" "&lt;"
             (replaceAll "&" "&amp;" s)))).

(** ** The data of a card (displayCards, lines 224-229 and 244-246) *)

Definition placeholder : string :=
  "https://via.placeholder.com/520x300?text=No+Image".

(** [place.photo ? place.photo : placeholder]: [null] and the empty
    string are falsy. *)
Definition imgUrl (place : Place) : string :=
  match photo place with
  | Some u => if String.eqb u EmptyString then placeholder else u
  | None => placeholder
  end.

(** [place.rating ?? 'N/A']. *)
Definition shownRating (place : Place) : ShownRating :=
  match rating place with
  | Some r => RatingNum r
  | None => RatingNA
  end.

(** The [onSave] of the card of [place]. *)
Definition onSave (place : Place) (s : App) : App :=
  savePlace (mkSaved (name place) (place_id place) (imgUrl place)
                     (shownRating place)) s.

(** ** The theme (lines 39-52) *)

Inductive ThemeLabel := LightModeLabel | DarkModeLabel.

(** [theme_body]: the [data-theme] attribute of the body;
    [theme_stored]: the ["theme"] item;
    [themeBtn]: the text of [#themeBtn], [None] when the page has no
    such button or its text was never set. *)
Record Theme := mkTheme {
  theme_body : option string;
  theme_stored : option string;
  themeBtnPresent : bool;
  themeBtn : option ThemeLabel
}.

Definition labelFor (mode : string) : ThemeLabel :=
  if String.eqb mode "dark" then LightModeLabel else DarkModeLabel.

Definition setLabel (mode : string) (t : Theme) : option ThemeLabel :=
  if themeBtnPresent t then Some (labelFor mode) else themeBtn t.

Definition toggleTheme (t : Theme) : Theme :=
  let mode :=
    match theme_body t with
    | Some b => if String.eqb b "dark" then "light" else "dark"
    | None => "dark"
    end in
  mkTheme (Some mode) (Some mode) (themeBtnPresent t) (setLabel mode t).

(** [localStorage.getItem('theme') || 'light']. *)
Definition initTheme (t : Theme) : Theme :=
  let saved :=
    match theme_stored t with
    | Some v => if String.eqb v EmptyString then "light" else v
    | None => "light"
    end in
  mkTheme (Some saved) (theme_stored t) (themeBtnPresent t) (setLabel saved t).

(** * The proxy (backend/server.js) *)

(** ** encodeURIComponent *)

(** On the UTF-8 bytes of a well-formed string: the unreserved
    characters stay, every other byte becomes [%XX]. *)
Definition unreserved (c : ascii) : bool :=
  let n := nat_of_ascii c in
  ((65 <=? n) && (n <=? 90))%nat
  || ((97 <=? n) && (n <=? 122))%nat
  || ((48 <=? n) && (n <=? 57))%nat
  || existsb (Ascii.eqb c)
       ["-"; "_"; "."; "!"; "~"; "*"; "'"; "("; ")"]%char.

Definition hexDigit (n : nat) : ascii :=
  if (n <? 10)%nat then ascii_of_nat (48 + n) else ascii_of_nat (55 + n).

Definition percentByte (c : ascii) : string :=
  let n := nat_of_ascii c in
  String "%" (String (hexDigit (n / 16)) (String (hexDigit (n mod 16)) EmptyString)).

Fixpoint encodeURIComponent (s : string) : string :=
  match s with
  | EmptyString => EmptyString
  | String c s' =>
      if unreserved c then String c (encodeURIComponent s')
      else percentByte c +:+ encodeURIComponent s'
  end.

(** ** What Google answers and what the proxy returns *)

(** A result of the Places API, as far as the proxy reads it;
    [g_photo_ref] is [p.photos?.[0]?.photo_reference]. *)
Record GPlace := mkGPlace {
  g_place_id : string;
  g_name : string;
  g_rating : option Q;
  g_vicinity : option string;
  g_photo_ref : option string
}.

Record GData := mkGData {
  g_status : option string;
  g_error_message : option string;
  g_results : option (list GPlace)
}.

(** How [axios.get] ends: it resolves with [r.data] (absent when the
    body is empty), or it rejects, with [e.response.status] when Google
    answered at all. *)
Inductive Upstream :=
| UpData (d : option GData)
| UpFail (status : option Z).

Record Item := mkItem {
  i_place : Place;
  i_photoRef : option string
}.

Inductive Body :=
| BError (error : string) (status message : option string)
| BResults (items : list Item).

Record Reply := mkReply {
  reply_code : Z;
  reply_body : Body
}.

(** A JavaScript string as a condition: present and not empty. *)
Definition truthy (o : option string) : bool :=
  match o with
  | Some v => negb (String.eqb v EmptyString)
  | None => false
  end.

(** [a || b] on strings. *)
Definition orElse (o : option string) (d : string) : string :=
  match o with
  | Some v => if String.eqb v EmptyString then d else v
  | None => d
  end.

Record Query := mkQuery {
  q_type : option string;
  q_lat : option string;
  q_lng : option string;
  q_radius : option string
}.

(** The element built for one result. *)
Definition toItem (p : GPlace) : Item :=
  mkItem
    (mkPlace (g_place_id p) (g_name p) (g_rating p)
             (default EmptyString (g_vicinity p))
             (if truthy (g_photo_ref p)
              then Some ("/api/photo?ref="
                         +:+ encodeURIComponent (default EmptyString (g_photo_ref p))
                         +:+ "&max=520")
              else None))
    (if truthy (g_photo_ref p) then g_photo_ref p else None).

(** The two early returns of [/api/nearby]; [None]: the handler goes on
    to call Google. *)
Definition nearbyGuard (key : string) (q : Query) : option Reply :=
  if negb (truthy (q_lat q)) || negb (truthy (q_lng q))
  then Some (mkReply 400 (BError "lat,lng required" None None))
  else if String.eqb key EmptyString
  then Some (mkReply 500 (BError "Server is missing GOOGLE_API_KEY" None None))
  else None.

(** The [params] of the call: [location], [radius], [type]. *)
Definition nearbyParams (q : Query) : string * string * string :=
  (default EmptyString (q_lat q) +:+ "," +:+ default EmptyString (q_lng q),
   default "1500" (q_radius q),
   default "cafe" (q_type q)).

(** The [try] block once [axios.get] has ended. *)
Definition nearbyAnswer (up : Upstream) : Reply :=
  match up with
  | UpFail st =>
      mkReply (match st with
               | Some c => if c =? 0 then 500 else c
               | None => 500
               end)
              (BError "Upstream failed" None None)
  | UpData None => mkReply 500 (BError "Upstream failed" None None)
  | UpData (Some d) =>
      if truthy (g_status d) && negb (String.eqb (default EmptyString (g_status d)) "OK")
      then mkReply 502
             (BError "Google Places error" (g_status d)
                     (Some (orElse (g_error_message d) "Unknown error from Google")))
      else mkReply 200 (BResults (map toItem (default [] (g_results d))))
  end.

Definition nearbyRoute (key : string) (q : Query) (up : Upstream) : Reply :=
  match nearbyGuard key q with
  | Some r => r
  | None => nearbyAnswer up
  end.

(** The early returns of [/api/photo], as status and text. *)
Definition photoGuard (key : string) (ref : option string) : option (Z * string) :=
  if negb (truthy ref) then Some (400, "Missing ref")
  else if String.eqb key EmptyString
  then Some (500, "Server is missing GOOGLE_API_KEY")
  else None.

(** ** What the script makes of a reply (lines 157-168) *)

(** [res.ok], then [json.message || json.error || json.status] or
    [API <status>], then [json.results]. *)
Definition clientSees (r : Reply) : Response :=
  if (200 <=? reply_code r) && (reply_code r <? 300)
  then match reply_body r with
       | BResults items => OkBody (Some (map i_place items))
       | BError _ _ _ => OkBody None
       end
  else match reply_body r with
       | BError e st m =>
           HttpError (orElse m (orElse (Some e) (orElse st ("API " +:+ pretty (reply_code r)))))
       | BResults _ => HttpError ("API " +:+ pretty (reply_code r))
       end.

(** * More vocabulary *)

(** While [inFlight] is set, a response is still owed. *)
Definition flight_inv (s : App) : Prop :=
  inFlight s = true → pendingFetch s ≠ [].

(** The button is disabled exactly while the timer is armed, and the
    timer is due 8 s after the last request. *)
Definition timer_inv (s : App) : Prop :=
  match findBtn s with
  | Some true => busyTimer s = Some (lastRequestAt s + WATCHDOG_MS)
  | _ => busyTimer s = None
  end.

(** Nothing that was stored has been removed. *)
Definition kept (st st' : Storage) : Prop :=
  (is_Some (cachedLocation st) → is_Some (cachedLocation st'))
  ∧ (∀ k, is_Some (nearby st !! k) → is_Some (nearby st' !! k))
  ∧ (∀ k, is_Some (saved st !! k) → is_Some (saved st' !! k)).

(** A clock reading between [lo] and [hi]. *)
Definition inWindow (lo hi u : Z) : bool := (lo <=? u) && (u <=? hi).

(** [json.results] as the script takes it, [[]] for every response that
    has none. *)
Definition resultsOf (r : Response) : list Place :=
  match r with
  | OkBody r => default [] r
  | _ => []
  end.

(** The characters of a text. *)
Definition chars (s : string) : list ascii :=
  Strings.String.list_ascii_of_string s.

(** The five characters [escapeHtml] replaces. *)
Definition special (c : ascii) : bool :=
  existsb (Ascii.eqb c) ["&"; "<"; ">"; dquote; "'"]%char.

(** The four of them that delimit markup. *)
Definition markup (c : ascii) : bool :=
  existsb (Ascii.eqb c) ["<"; ">"; dquote; "'"]%char.

(** What [escapeHtml] writes for one character. *)
Definition escapeChar (c : ascii) : string :=
  if Ascii.eqb c "&" then "&amp;"
  else if Ascii.eqb c "<" then "&lt;"
  else if Ascii.eqb c ">" then "&gt;"
  else if Ascii.eqb c dquote then "&quot;"
  else if Ascii.eqb c "'" then "&#039;"
  else String c EmptyString.

(** How often an id occurs in a list. *)
Definition occurrences (id : string) (l : list SavedRecord) : nat :=
  length (List.filter (hasId id) l).

(** Character by character. *)
Fixpoint escapeEach (s : string) : string :=
  match s with
  | EmptyString => EmptyString
  | String c s' => escapeChar c +:+ escapeEach s'
  end.

(** The page loaded anew: the DOM is fresh, the storage is what it was. *)
Definition reload (t : Theme) : Theme :=
  mkTheme None (theme_stored t) (themeBtnPresent t) None.

(** A character [encodeURIComponent] may write. *)
Definition uriSafe (c : ascii) : bool :=
  unreserved c || Ascii.eqb c "%".

(** A status Google sends with an answer that is not a success. *)
Definition refused (d : GData) : bool :=
  truthy (g_status d) && negb (String.eqb (default EmptyString (g_status d)) "OK").

(** ** More sample data *)

Definition query_here : Query :=
  mkQuery None (Some "40.0001") (Some "-73.9999") None.

Definition google_zero : GData :=
  mkGData (Some "ZERO_RESULTS") None (Some []).

Definition gplace_a : GPlace :=
  mkGPlace "p-a" "Alma" (Some (9 # 2)%Q) (Some "1 Main St") (Some "ref a&b").

Definition gplace_b : GPlace :=
  mkGPlace "p-b" "Bruno" None None None.

Definition google_ok : GData :=
  mkGData (Some "OK") None (Some [gplace_b; gplace_a]).

(** * Properties *)

(** ** [toFixed(3)] on a few numbers *)

Example toFixed3_a : toFixed3 (400006 # 10000) = "40.001".
Proof. vm_compute. reflexivity. Qed.
Example toFixed3_b : toFixed3 (-1 # 10000) = "-0.000".
Proof. vm_compute. reflexivity. Qed.
Example toFixed3_c : toFixed3 (-739999 # 10000) = "-74.000".
Proof. vm_compute. reflexivity. Qed.
Example toFixed3_d : toFixed3 (5 # 1000) = "0.005".
Proof. vm_compute. reflexivity. Qed.
Example toFixed3_e : toFixed3 (15 # 10000) = "0.002".
Proof. vm_compute. reflexivity. Qed.
Example spec_round3_a : spec_round3 (400006 # 10000) = "40.000".
Proof. vm_compute. reflexivity. Qed.

(** ** Timestamps and freshness *)

Lemma fresh_Some (T now ttl : Z) :
  fresh (Some T) now ttl = true ↔ T ≠ 0 ∧ now - T < ttl.
Proof.
  unfold fresh. rewrite andb_true_iff, negb_true_iff, Z.eqb_neq, Z.ltb_lt.
  tauto.
Qed.

Lemma fresh_falsy (t : option Z) (now ttl : Z) :
  t = None ∨ t = Some 0 → fresh t now ttl = false.
Proof. intros [-> | ->]; reflexivity. Qed.

Lemma getCachedResults_set (T T' : Z) (k : string) (d : list Place) (st : Storage) :
  getCachedResults T' k (setCachedResults T k d st)
  = if fresh (Some T) T' RESULT_TTL then Some d else None.
Proof.
  unfold getCachedResults, parsedResults, setCachedResults. simpl.
  rewrite lookup_insert_eq. reflexivity.
Qed.

Lemma getCachedResults_hit (now T : Z) (k : string) (e : ResEntry) (st : Storage) :
  nearby st !! k = Some e → ts e = Some T → T ≠ 0 → now - T < RESULT_TTL →
  getCachedResults now k st = data e.
Proof.
  intros Hk Hts H0 Hage. unfold getCachedResults, parsedResults.
  rewrite Hk. simpl. rewrite Hts.
  assert (fresh (Some T) now RESULT_TTL = true) as -> by (apply fresh_Some; done).
  reflexivity.
Qed.

(** ** What [useLocation] leaves alone *)

Ltac frame :=
  unfold useLocation, setBusy; simpl;
  repeat (case_match; simpl); reflexivity.

Lemma useLocation_storage (now : Z) (la lo : Q) (s : App) :
  storage (useLocation now la lo s) = storage s.
Proof. frame. Qed.

Lemma useLocation_pendingGeo (now : Z) (la lo : Q) (s : App) :
  pendingGeo (useLocation now la lo s) = pendingGeo s.
Proof. frame. Qed.

(** The miss branch of [useLocation], by the state of the gate. *)
Lemma useLocation_dropped (now : Z) (la lo : Q) (s : App) :
  getCachedResults now (cacheKey la lo (currentType s)) (storage s) = None →
  gateClosed now s = true →
  useLocation now la lo s = s.
Proof. intros Hm Hg. unfold useLocation. rewrite Hm, Hg. reflexivity. Qed.

Lemma useLocation_admitted (now : Z) (la lo : Q) (s : App) :
  getCachedResults now (cacheKey la lo (currentType s)) (storage s) = None →
  gateClosed now s = false →
  useLocation now la lo s
  = with_pendingFetch (cacheKey la lo (currentType s) :: pendingFetch s)
      (emit (EFetch now (currentType s) la lo)
         (setBusy true now (with_lastRequestAt now (with_inFlight true s)))).
Proof.
  intros Hm Hg. unfold useLocation. rewrite Hm, Hg.
  unfold setBusy. simpl. destruct (findBtn s); reflexivity.
Qed.

Lemma gateClosed_iff (now : Z) (s : App) :
  gateClosed now s = true ↔ inFlight s = true ∨ now - lastRequestAt s < REQUEST_GAP_MS.
Proof.
  unfold gateClosed. rewrite orb_true_iff, Z.ltb_lt. tauto.
Qed.

Lemma gateOpen_iff (now : Z) (s : App) :
  gateClosed now s = false ↔ inFlight s = false ∧ REQUEST_GAP_MS ≤ now - lastRequestAt s.
Proof.
  unfold gateClosed. rewrite orb_false_iff, Z.ltb_ge. tauto.
Qed.

(** ** The two caches and their time-to-live *)

Lemma getLocation_gated (now : Z) (s : App) :
  gateClosed now s = true → getLocation now s = view s.
Proof.
  intros Hg. unfold getLocation.
  change (gateClosed now (emit (EView FindView) s)) with (gateClosed now s).
  rewrite Hg. reflexivity.
Qed.

Lemma getLocation_open (now : Z) (s : App) :
  gateClosed now s = false →
  getLocation now s
  = match cachedLocation (storage s) with
    | Some c =>
        if fresh (timestamp c) now (CACHE_MINUTES * 60 * 1000)
        then useLocation now (lat c) (lng c) (view s)
        else askProvider now s
    | None => askProvider now s
    end.
Proof.
  intros Hg. unfold getLocation, askProvider, view.
  change (gateClosed now (emit (EView FindView) s)) with (gateClosed now s).
  rewrite Hg. simpl.
  destruct (cachedLocation (storage s)) as [c |]; [| reflexivity].
  destruct (fresh (timestamp c) now (CACHE_MINUTES * 60 * 1000)); reflexivity.
Qed.

(** C1, as amended.  A result entry stored by [setCachedResults] at a
    clock reading [T] other than 0 is returned unchanged by a lookup at
    [T'] when [T' - T] is below 5 minutes and is absent from 5 minutes
    on.  A location entry whose [timestamp] field is [T], other than 0,
    makes a [getLocation] that passes the gate at [T'] go on with the
    stored coordinates, asking the provider nothing, when [T' - T] is
    below 10 minutes, and makes it turn to the provider from 10 minutes
    on. *)
Theorem cache_ttl :
  (∀ (T T' : Z) (k : string) (d : list Place) (st : Storage),
     T ≠ 0 →
     getCachedResults T' k (setCachedResults T k d st)
     = if T' - T <? 5 * 60 * 1000 then Some d else None)
  ∧ (∀ (T T' : Z) (c : LocEntry) (s : App),
       T ≠ 0 →
       cachedLocation (storage s) = Some c →
       timestamp c = Some T →
       gateClosed T' s = false →
       getLocation T' s
       = (if T' - T <? 10 * 60 * 1000
          then useLocation T' (lat c) (lng c) (view s)
          else askProvider T' s)
       ∧ pendingGeo (getLocation T' s)
         = (if T' - T <? 10 * 60 * 1000 then pendingGeo s
            else pendingGeo (askProvider T' s))).
Proof.
  split.
  - intros T T' k d st HT. rewrite getCachedResults_set.
    unfold fresh, RESULT_TTL.
    apply Z.eqb_neq in HT. rewrite HT. reflexivity.
  - intros T T' c s HT Hc Hts Hg.
    rewrite (getLocation_open _ _ Hg), Hc, Hts.
    unfold fresh, CACHE_MINUTES.
    apply Z.eqb_neq in HT. rewrite HT. simpl negb. simpl andb.
    destruct (T' - T <? 10 * 60 * 1000); [| done].
    split; [reflexivity |]. rewrite useLocation_pendingGeo. reflexivity.
Qed.

Lemma cache_ttl_witness :
  getCachedResults 1299999 "k" (setCachedResults 1000000 "k" [place_a] emptyStorage)
  = Some [place_a]
  ∧ getCachedResults 1300000 "k" (setCachedResults 1000000 "k" [place_a] emptyStorage)
    = None
  ∧ pendingGeo (getLocation 1599999 page_located) = []
  ∧ pendingGeo (getLocation 1600000 page_located) = [1600000].
Proof.
  split; [| split; [| split]].
  - apply (proj1 cache_ttl 1000000 1299999). lia.
  - apply (proj1 cache_ttl 1000000 1300000). lia.
  - apply (proj2 cache_ttl 1000000 1599999
             (mkLoc here_lat here_lng (Some 1000000)) page_located);
      [lia | reflexivity | reflexivity | reflexivity].
  - apply (proj2 cache_ttl 1000000 1600000
             (mkLoc here_lat here_lng (Some 1000000)) page_located);
      [lia | reflexivity | reflexivity | reflexivity].
Defined.

(** C1 as stated fails.  An entry written when the clock reads 0 is never
    returned, however young.  And the location entry written by the
    success callback at 1005000, for a request made at 1000000, is
    already passed over at 1600000, 595 seconds after it was written:
    the provider is asked again. *)
Lemma cache_ttl_counterexample :
  (1 - 0 < 5 * 60 * 1000
   ∧ getCachedResults 1 "k" (setCachedResults 0 "k" [place_a] emptyStorage) = None)
  ∧ (1600000 - 1005000 < 10 * 60 * 1000
     ∧ ∃ s1 s2,
         run [Click 1000000; GeoOk 1000000 here_lat here_lng 1005000;
              FetchDone (cacheKey here_lat here_lng "cafe")
                        (OkBody (Some [place_a])) 1005400] page = Some s1
         ∧ cachedLocation (storage s1)
           = Some (mkLoc here_lat here_lng (Some 1000000))
         ∧ gateClosed 1600000 s1 = false
         ∧ step (Click 1600000) s1 = Some s2
         ∧ log s2 = EGeoRequest 1600000 :: EView FindView :: log s1).
Proof.
  split; [split; [lia | reflexivity] |].
  split; [lia |].
  eexists _, _.
  split; [vm_compute; reflexivity |].
  split; [reflexivity |].
  split; [reflexivity |].
  split; reflexivity.
Qed.

(** C10.  A result entry whose [ts] is missing or 0, like a missing
    entry, yields [null] whatever its age and data; a cached location
    whose [timestamp] is missing or 0 is passed over by [getLocation],
    which acts as it does without a cached location. *)
Theorem falsy_timestamp_ignored :
  (∀ (now : Z) (key : string) (st : Storage) (e : ResEntry),
     nearby st !! key = Some e →
     ts e = None ∨ ts e = Some 0 →
     getCachedResults now key st = None)
  ∧ (∀ (now : Z) (key : string) (st : Storage),
       nearby st !! key = None → getCachedResults now key st = None)
  ∧ (∀ (now : Z) (s : App) (c : LocEntry),
       cachedLocation (storage s) = Some c →
       timestamp c = None ∨ timestamp c = Some 0 →
       getLocation now s
       = if gateClosed now s then view s else askProvider now s).
Proof.
  split; [| split].
  - intros now key st e Hk Hts. unfold getCachedResults, parsedResults.
    rewrite Hk. simpl. rewrite fresh_falsy; done.
  - intros now key st Hk. unfold getCachedResults, parsedResults.
    rewrite Hk. reflexivity.
  - intros now s c Hc Hts.
    destruct (gateClosed now s) eqn:Hg.
    + apply getLocation_gated, Hg.
    + rewrite (getLocation_open _ _ Hg), Hc, fresh_falsy; done.
Qed.

Lemma falsy_timestamp_ignored_witness :
  getCachedResults 1000 "k" storage_zero_ts = None
  ∧ getCachedResults 1000 "other" storage_zero_ts = None
  ∧ getLocation 1000000 (with_storage (λ _, storage_zero_ts) page)
    = askProvider 1000000 (with_storage (λ _, storage_zero_ts) page).
Proof.
  split; [| split].
  - apply (proj1 falsy_timestamp_ignored 1000 "k" storage_zero_ts
             (mkRes (Some 0) (Some [place_a]))); [reflexivity | right; reflexivity].
  - apply (proj1 (proj2 falsy_timestamp_ignored) 1000 "other" storage_zero_ts).
    reflexivity.
  - apply (proj2 (proj2 falsy_timestamp_ignored) 1000000
             (with_storage (λ _, storage_zero_ts) page)
             (mkLoc here_lat here_lng (Some 0)));
      [reflexivity | right; reflexivity].
Defined.

Lemma useLocation_hit (now T : Z) (la lo : Q) (e : ResEntry) (d : list Place)
  (s : App) :
  nearby (storage s) !! cacheKey la lo (currentType s) = Some e →
  ts e = Some T → T ≠ 0 → now - T < RESULT_TTL → data e = Some d →
  let s' := useLocation now la lo s in
  log s' = EDisplay d :: log s
  ∧ inFlight s' = inFlight s
  ∧ lastRequestAt s' = lastRequestAt s
  ∧ pendingFetch s' = pendingFetch s
  ∧ storage s' = storage s.
Proof.
  intros Hk Hts HT Hage Hd s'. subst s'.
  unfold useLocation.
  rewrite (getCachedResults_hit _ _ _ _ _ Hk Hts HT Hage), Hd.
  unfold setBusy. simpl. destruct (findBtn s); repeat split.
Qed.

(** C3, as amended.  In [useLocation] the cache is looked up before the
    gate: when the key of the call has an entry with data, stored at a
    time [T] (other than 0) less than 5 minutes ago, the data is
    displayed at once, whatever the gate says ([s] is arbitrary:
    [inFlight] may be set, the last request may be less than 2.5 s old),
    and the call changes neither [inFlight] nor [lastRequestAt], calls
    nothing upstream and leaves the storage as it is.  So it is for the
    call made by the geolocation callback, which comes in behind
    [getLocation]'s gate, and for a click that passes that gate with a
    usable cached location.  A click that meets [getLocation]'s gate
    closed is dropped there, before any cache is looked at. *)
Theorem cache_hit_bypasses_gate :
  (∀ (now T : Z) (la lo : Q) (e : ResEntry) (d : list Place) (s : App),
     nearby (storage s) !! cacheKey la lo (currentType s) = Some e →
     ts e = Some T → T ≠ 0 → now - T < 5 * 60 * 1000 →
     data e = Some d →
     let s' := useLocation now la lo s in
     log s' = EDisplay d :: log s
     ∧ inFlight s' = inFlight s
     ∧ lastRequestAt s' = lastRequestAt s
     ∧ pendingFetch s' = pendingFetch s
     ∧ storage s' = storage s)
  ∧ (∀ (now0 now T : Z) (la lo : Q) (e : ResEntry) (d : list Place) (s : App),
       nearby (storage s) !! cacheKey la lo (currentType s) = Some e →
       ts e = Some T → T ≠ 0 → now - T < 5 * 60 * 1000 →
       data e = Some d →
       let s' := geoSuccess now0 la lo now s in
       log s' = EDisplay d :: log s
       ∧ inFlight s' = inFlight s
       ∧ lastRequestAt s' = lastRequestAt s
       ∧ pendingFetch s' = pendingFetch s
       ∧ nearby (storage s') = nearby (storage s))
  ∧ (∀ (now T Tl : Z) (c : LocEntry) (e : ResEntry) (d : list Place) (s : App),
       gateClosed now s = false →
       cachedLocation (storage s) = Some c →
       timestamp c = Some Tl → Tl ≠ 0 → now - Tl < 10 * 60 * 1000 →
       nearby (storage s) !! cacheKey (lat c) (lng c) (currentType s) = Some e →
       ts e = Some T → T ≠ 0 → now - T < 5 * 60 * 1000 →
       data e = Some d →
       let s' := getLocation now s in
       log s' = EDisplay d :: EView FindView :: log s
       ∧ inFlight s' = inFlight s
       ∧ lastRequestAt s' = lastRequestAt s
       ∧ pendingFetch s' = pendingFetch s
       ∧ storage s' = storage s)
  ∧ (∀ (now : Z) (s : App),
       inFlight s = true ∨ now - lastRequestAt s < 2500 →
       getLocation now s = view s).
Proof.
  split; [| split; [| split]].
  - intros now T la lo e d s Hk Hts HT Hage Hd.
    by apply (useLocation_hit now T la lo e d s).
  - intros now0 now T la lo e d s Hk Hts HT Hage Hd s'. subst s'.
    unfold geoSuccess.
    destruct (useLocation_hit now T la lo e d
                (with_storage (setLocation (mkLoc la lo (Some now0))) s)
                Hk Hts HT Hage Hd) as (H1 & H2 & H3 & H4 & H5).
    rewrite H1, H2, H3, H4, H5. repeat split.
  - intros now T Tl c e d s Hg Hc Htl HTl Hagel Hk Hts HT Hage Hd s'. subst s'.
    rewrite getLocation_open by done. rewrite Hc, Htl.
    assert (fresh (Some Tl) now (CACHE_MINUTES * 60 * 1000) = true) as ->
      by (by apply fresh_Some).
    destruct (useLocation_hit now T (lat c) (lng c) e d (view s)
                Hk Hts HT Hage Hd) as (H1 & H2 & H3 & H4 & H5).
    rewrite H1, H2, H3, H4, H5. repeat split.
  - intros now s Hc. apply getLocation_gated. by apply gateClosed_iff.
Qed.

Lemma cache_hit_bypasses_gate_witness :
  ∃ s1, run two_clicks_one_search page = Some s1
        ∧ gateClosed 1002000 s1 = true
        ∧ log (useLocation 1002000 here_lat here_lng s1)
          = EDisplay [place_a; place_c] :: log s1
        ∧ log (geoSuccess 1000100 here_lat here_lng 1002000 s1)
          = EDisplay [place_a; place_c] :: log s1
        ∧ lastRequestAt (geoSuccess 1000100 here_lat here_lng 1002000 s1)
          = lastRequestAt s1
        ∧ log (getLocation 1004000 s1)
          = EDisplay [place_a; place_c] :: EView FindView :: log s1
        ∧ getLocation 1002000 s1 = view s1.
Proof.
  destruct (run two_clicks_one_search page) as [s1 |] eqn:Hrun;
    [| vm_compute in Hrun; discriminate].
  exists s1. split; [reflexivity |].
  vm_compute in Hrun. injection Hrun as <-.
  split; [reflexivity |].
  split.
  { apply (proj1 cache_hit_bypasses_gate 1002000 1001300 here_lat here_lng
             (mkRes (Some 1001300) (Some [place_a; place_c]))
             [place_a; place_c]);
      [vm_compute; reflexivity | reflexivity | lia | lia | reflexivity]. }
  split.
  { apply (proj1 (proj2 cache_hit_bypasses_gate) 1000100 1002000 1001300
             here_lat here_lng
             (mkRes (Some 1001300) (Some [place_a; place_c]))
             [place_a; place_c]);
      [vm_compute; reflexivity | reflexivity | lia | lia | reflexivity]. }
  split.
  { apply (proj1 (proj2 cache_hit_bypasses_gate) 1000100 1002000 1001300
             here_lat here_lng
             (mkRes (Some 1001300) (Some [place_a; place_c]))
             [place_a; place_c]);
      [vm_compute; reflexivity | reflexivity | lia | lia | reflexivity]. }
  split.
  { apply (proj1 (proj2 (proj2 cache_hit_bypasses_gate)) 1004000 1001300 1000000
             (mkLoc here_lat here_lng (Some 1000000))
             (mkRes (Some 1001300) (Some [place_a; place_c]))
             [place_a; place_c]);
      [reflexivity | reflexivity | reflexivity | lia | lia
      | vm_compute; reflexivity | reflexivity | lia | lia | reflexivity]. }
  apply (proj2 (proj2 (proj2 cache_hit_bypasses_gate)) 1002000).
  right. simpl. lia.
Defined.

(** C3 as stated fails for a request that comes in through
    [getLocation].  After the search below, the results of the place
    are cached and fresh, and so is the location; the click at 1003000,
    2 s after the upstream call, is dropped at the gate of line 93:
    nothing is displayed. *)
Lemma cache_hit_gated_counterexample :
  ∃ s1 s2,
    run [Click 1000000; GeoOk 1000000 here_lat here_lng 1001000;
         FetchDone (cacheKey here_lat here_lng "cafe")
                   (OkBody (Some [place_a; place_c])) 1001300] page = Some s1
    ∧ getCachedResults 1003000 (cacheKey here_lat here_lng (currentType s1))
        (storage s1) = Some [place_a; place_c]
    ∧ locationFresh 1003000 s1 = true
    ∧ step (Click 1003000) s1 = Some s2
    ∧ log s2 = EView FindView :: log s1
    ∧ storage s2 = storage s1.
Proof.
  eexists _, _.
  split; [vm_compute; reflexivity |].
  split; [vm_compute; reflexivity |].
  split; [reflexivity |].
  split; [vm_compute; reflexivity |].
  split; reflexivity.
Qed.

(** ** The order of the stored results *)

Lemma byRating_keep (x y : Place) :
  Qle_bool (byRating x y) 0 = true ↔ rated_before x y.
Proof.
  rewrite Qle_bool_iff. unfold byRating, rated_before.
  split; intros H; lra.
Qed.

Lemma byRating_move (x y : Place) :
  Qle_bool (byRating x y) 0 = false → (ratingOr0 x < ratingOr0 y)%Q.
Proof.
  intros H. apply Qnot_le_lt. intros Hle.
  apply byRating_keep in Hle. congruence.
Qed.

Lemma rated_before_trans (a b c : Place) :
  rated_before a b → rated_before b c → rated_before a c.
Proof. unfold rated_before. intros H1 H2. eapply Qle_trans; eassumption. Qed.

Lemma sort_insert_cons (x y : Place) (l : list Place) :
  sort_insert byRating x (y :: l)
  = if Qle_bool (ratingOr0 y - ratingOr0 x) 0 then x :: y :: l
    else y :: sort_insert byRating x l.
Proof. reflexivity. Qed.

Lemma sort_insert_perm (x : Place) (l : list Place) :
  sort_insert byRating x l ≡ₚ x :: l.
Proof.
  induction l as [| y l IH]; simpl; [done |].
  destruct (Qle_bool (byRating x y) 0); [done |].
  rewrite IH. apply perm_swap.
Qed.

Lemma sortWith_perm (l : list Place) : sortWith byRating l ≡ₚ l.
Proof.
  induction l as [| x l IH]; simpl; [done |].
  rewrite sort_insert_perm. by rewrite IH.
Qed.

Lemma sort_insert_sorted (x : Place) (l : list Place) :
  StronglySorted rated_before l →
  StronglySorted rated_before (sort_insert byRating x l).
Proof.
  induction l as [| y l IH]; intros Hs; simpl.
  - repeat constructor.
  - apply StronglySorted_inv in Hs as [Hl Hy].
    destruct (Qle_bool (byRating x y) 0) eqn:E.
    + apply byRating_keep in E.
      constructor; [by constructor |].
      constructor; [done |].
      eapply Forall_impl; [exact Hy |].
      intros z Hz. by eapply rated_before_trans.
    + apply byRating_move in E.
      constructor; [by apply IH |].
      rewrite sort_insert_perm. constructor; [| done].
      unfold rated_before. by apply Qlt_le_weak.
Qed.

Lemma sortWith_sorted (l : list Place) :
  StronglySorted rated_before (sortWith byRating l).
Proof.
  induction l as [| x l IH]; simpl; [constructor |].
  by apply sort_insert_sorted.
Qed.

(** Places of one rating keep the order they came in. *)
Lemma sort_insert_stable (v : Q) (x : Place) (l : list Place) :
  List.filter (sameRating v) (sort_insert byRating x l)
  = List.filter (sameRating v) (x :: l).
Proof.
  induction l as [| y l IH]; simpl; [done |].
  destruct (Qle_bool (byRating x y) 0) eqn:E; [done |].
  apply byRating_move in E. simpl in *. rewrite IH.
  destruct (sameRating v x) eqn:Ex; [| done].
  destruct (sameRating v y) eqn:Ey; [| done].
  exfalso. unfold sameRating in *.
  apply Qeq_bool_iff in Ex, Ey.
  rewrite Ex, Ey in E. by apply Qlt_irrefl in E.
Qed.

Lemma sortWith_stable (v : Q) (l : list Place) :
  List.filter (sameRating v) (sortWith byRating l) = List.filter (sameRating v) l.
Proof.
  induction l as [| x l IH]; simpl; [done |].
  rewrite sort_insert_stable. simpl. by rewrite IH.
Qed.

Lemma fetchDone_results (key : string) (p : Place) (rs : list Place)
  (now : Z) (s : App) :
  let sorted := sortWith byRating (p :: rs) in
  let s' := fetchDone key (OkBody (Some (p :: rs))) now s in
  storage s' = setCachedResults now key sorted (storage s)
  ∧ log s' = EDisplay sorted :: log s.
Proof.
  intros sorted s'. subst sorted s'. unfold fetchDone, setBusy. simpl.
  destruct (findBtn s); split; reflexivity.
Qed.

(** The order is kept for good. *)
Lemma getCachedResults_Some (now : Z) (k : string) (st : Storage) (d : list Place) :
  getCachedResults now k st = Some d →
  ∃ e, nearby st !! k = Some e ∧ data e = Some d.
Proof.
  unfold getCachedResults, parsedResults.
  destruct (nearby st !! k) as [e |]; simpl; [| done].
  destruct (fresh (ts e) now RESULT_TTL); [| done].
  intros Hd. by exists e.
Qed.

Lemma sorted_inv_same (s s' : App) :
  nearby (storage s') = nearby (storage s) → log s' = log s →
  sorted_inv s → sorted_inv s'.
Proof.
  intros Hn Hl [Hs Hd]. split.
  - intros k e d. rewrite Hn. apply Hs.
  - intros d. rewrite Hl. apply Hd.
Qed.

Lemma sorted_inv_emit (e : Effect) (s s' : App) :
  nearby (storage s') = nearby (storage s) → log s' = e :: log s →
  (∀ d, e = EDisplay d → StronglySorted rated_before d) →
  sorted_inv s → sorted_inv s'.
Proof.
  intros Hn Hl He [Hs Hd]. split.
  - intros k e' d. rewrite Hn. apply Hs.
  - intros d. rewrite Hl, elem_of_cons. intros [Heq | Hin]; [| by apply Hd].
    by apply He.
Qed.

Lemma useLocation_sorted_inv (now : Z) (la lo : Q) (s : App) :
  sorted_inv s → sorted_inv (useLocation now la lo s).
Proof.
  intros Hi. unfold useLocation.
  destruct (getCachedResults _ _ _) as [d |] eqn:E.
  - apply getCachedResults_Some in E as (e & Hk & Hd).
    apply (sorted_inv_emit (EDisplay d) s); [| | | done].
    + unfold setBusy. simpl. by destruct (findBtn s).
    + unfold setBusy. simpl. by destruct (findBtn s).
    + intros d' [= <-]. destruct Hi as [Hs _]. by eapply Hs.
  - destruct (gateClosed now s); [done |].
    apply (sorted_inv_emit (EFetch now (currentType s) la lo) s); [| | | done].
    + unfold setBusy. simpl. by destruct (findBtn s).
    + unfold setBusy. simpl. by destruct (findBtn s).
    + intros d' [=].
Qed.

Lemma getLocation_sorted_inv (now : Z) (s : App) :
  sorted_inv s → sorted_inv (getLocation now s).
Proof.
  intros Hi.
  assert (sorted_inv (view s)) as Hv.
  { apply (sorted_inv_emit (EView FindView) s); [done | done | | done].
    intros d [=]. }
  destruct (gateClosed now s) eqn:Hg.
  - by rewrite getLocation_gated.
  - rewrite getLocation_open by done.
    assert (sorted_inv (askProvider now s)) as Hask.
    { unfold askProvider. destruct (geolocation s).
      - apply (sorted_inv_emit (EGeoRequest now) (view s)); [done | done | | done].
        intros d [=].
      - apply (sorted_inv_emit (ERenderEmpty GeoUnsupported) (view s));
          [done | done | | done].
        intros d [=]. }
    destruct (cachedLocation (storage s)) as [c |]; [| exact Hask].
    destruct (fresh _ _ _); [| exact Hask].
    by apply useLocation_sorted_inv.
Qed.

Lemma fetchDone_sorted_inv (key : string) (r : Response) (now : Z) (s : App) :
  sorted_inv s → sorted_inv (fetchDone key r now s).
Proof.
  intros Hi.
  destruct r as [| msg | | [[| p rs] |]].
  - apply (sorted_inv_emit (ERenderEmpty FetchFailed) s); [| | | done];
      [unfold fetchDone, setBusy; simpl; by destruct (findBtn s) ..
      | intros d [=]].
  - apply (sorted_inv_emit (ERenderEmpty (FailedWith msg)) s); [| | | done];
      [unfold fetchDone, setBusy; simpl; by destruct (findBtn s) ..
      | intros d [=]].
  - apply (sorted_inv_emit (ERenderEmpty FetchFailed) s); [| | | done];
      [unfold fetchDone, setBusy; simpl; by destruct (findBtn s) ..
      | intros d [=]].
  - apply (sorted_inv_emit (ERenderEmpty NoPlaces) s); [| | | done];
      [unfold fetchDone, setBusy; simpl; by destruct (findBtn s) ..
      | intros d [=]].
  - destruct (fetchDone_results key p rs now s) as [Hst Hlog].
    destruct Hi as [Hs Hd]. split.
    + intros k e d. rewrite Hst. unfold setCachedResults. simpl.
      rewrite lookup_insert. case_decide.
      * intros [= <-] [= <-]. apply (sortWith_sorted (p :: rs)).
      * apply Hs.
    + intros d. rewrite Hlog, elem_of_cons.
      intros [[= ->] | Hin]; [| by apply Hd].
      apply (sortWith_sorted (p :: rs)).
  - apply (sorted_inv_emit (ERenderEmpty NoPlaces) s); [| | | done];
      [unfold fetchDone, setBusy; simpl; by destruct (findBtn s) ..
      | intros d [=]].
Qed.

Lemma step_sorted_inv (e : Event) (s s' : App) :
  sorted_inv s → step e s = Some s' → sorted_inv s'.
Proof.
  intros Hi Hstep.
  destruct e; simpl in Hstep; repeat case_match; simplify_eq.
  - by apply getLocation_sorted_inv.
  - unfold onTypeChange. apply getLocation_sorted_inv.
    apply (sorted_inv_emit (EView FindView) s); [done | done | | done].
    intros d [=].
  - unfold geoSuccess. apply useLocation_sorted_inv.
    by apply (sorted_inv_same s).
  - unfold geoError.
    apply (sorted_inv_emit (ERenderEmpty GeoUnavailable) s); [| | | done];
      [unfold setBusy; simpl; by case_match ..| intros d [=]].
  - apply fetchDone_sorted_inv. by apply (sorted_inv_same s).
  - by apply (sorted_inv_same s).
  - unfold savePlace. case_match.
    + apply (sorted_inv_emit (EAlertAlready place (currentType s)) s);
        [reflexivity | reflexivity | | done]. intros d [=].
    + apply (sorted_inv_emit (EAlertSaved place (currentType s)) s);
        [reflexivity | reflexivity | | done]. intros d [=].
  - apply (sorted_inv_same s); [reflexivity | reflexivity | done].
  - apply (sorted_inv_emit (EShowSaved (currentSaved s))
             (emit (EView SavedView) s));
      [reflexivity | reflexivity | intros d [=] |].
    apply (sorted_inv_emit (EView SavedView) s);
      [reflexivity | reflexivity | | done].
    intros d [=].
Qed.

Lemma results_stay_sorted (evs : list Event) (s s' : App) :
  sorted_inv s → run evs s = Some s' → sorted_inv s'.
Proof.
  revert s. induction evs as [| e evs IH]; intros s Hi Hrun; simpl in Hrun.
  - by simplify_eq.
  - destruct (step e s) as [s1 |] eqn:E; [| done].
    eapply IH; [| exact Hrun]. by eapply step_sorted_inv.
Qed.

(** C5.  A successful search with a non-empty result list stores, under
    its key, and displays the list sorted by rating, highest first, a
    missing rating counting as 0: the stored list is a rearrangement of
    the results, in descending order, places of equal rating in the order
    they arrived.  Results rated 4.5, none and 3.0 are stored as 4.5, 3.0,
    none.  On a page whose stored lists are in order, every list stored
    or displayed later, from the network or from the cache, is in order
    too. *)
Theorem results_sorted_by_rating :
  (∀ (key : string) (p : Place) (rs : list Place) (now : Z) (s : App),
     let sorted := sortWith byRating (p :: rs) in
     let s' := fetchDone key (OkBody (Some (p :: rs))) now s in
     nearby (storage s') !! key = Some (mkRes (Some now) (Some sorted))
     ∧ log s' = EDisplay sorted :: log s
     ∧ StronglySorted rated_before sorted
     ∧ sorted ≡ₚ p :: rs
     ∧ ∀ v, List.filter (sameRating v) sorted
            = List.filter (sameRating v) (p :: rs))
  ∧ (∀ a b c : Place,
       rating a = Some (9 # 2)%Q → rating b = None → rating c = Some 3%Q →
       sortWith byRating [a; b; c] = [a; c; b])
  ∧ (∀ (evs : list Event) (st : Storage) (type : string) (btn geo : bool)
       (s' : App),
       stored_sorted st →
       run evs (initial st type btn geo) = Some s' →
       stored_sorted (storage s') ∧ shown_sorted (log s')).
Proof.
  split; [| split];
    [| | intros evs st type btn geo s' Hst Hrun;
         apply (results_stay_sorted evs (initial st type btn geo) s');
         [split; [exact Hst | intros d Hd; by apply elem_of_nil in Hd]
         | exact Hrun]].
  - intros key p rs now s sorted s'.
    destruct (fetchDone_results key p rs now s) as [Hst Hlog].
    fold sorted in Hst, Hlog. fold s' in Hst, Hlog.
    split; [| split; [| split; [| split]]].
    + rewrite Hst. unfold setCachedResults. simpl. apply lookup_insert_eq.
    + exact Hlog.
    + apply sortWith_sorted.
    + apply sortWith_perm.
    + intros v. apply sortWith_stable.
  - intros a b c Ha Hb Hc.
    assert (ratingOr0 a = (9 # 2)%Q) as Ea by (unfold ratingOr0; by rewrite Ha).
    assert (ratingOr0 b = 0%Q) as Eb by (unfold ratingOr0; by rewrite Hb).
    assert (ratingOr0 c = 3%Q) as Ec by (unfold ratingOr0; by rewrite Hc).
    change (sortWith byRating [a; b; c])
      with (sort_insert byRating a (sort_insert byRating b [c])).
    rewrite (sort_insert_cons b c []), Eb, Ec.
    change (Qle_bool (3 - 0) 0) with false. cbv iota.
    change (sort_insert byRating b []) with [b].
    rewrite (sort_insert_cons a c [b]), Ea, Ec. reflexivity.
Qed.

Lemma results_sorted_by_rating_witness :
  sortWith byRating [place_a; place_b; place_c] = [place_a; place_c; place_b]
  ∧ ∃ s', run one_search page = Some s'
          ∧ stored_sorted (storage s') ∧ shown_sorted (log s').
Proof.
  split.
  - apply (proj1 (proj2 results_sorted_by_rating) place_a place_b place_c);
      reflexivity.
  - destruct (run one_search page) as [s' |] eqn:Hrun;
      [| vm_compute in Hrun; discriminate].
    exists s'. split; [reflexivity |].
    apply (proj2 (proj2 results_sorted_by_rating)
             one_search emptyStorage "cafe" true true s'); [| exact Hrun].
    intros k e d Hk. vm_compute in Hk. discriminate.
Defined.

(** ** What a successful read writes *)

Lemma geoSuccess_location (now0 now : Z) (la lo : Q) (s : App) :
  cachedLocation (storage (geoSuccess now0 la lo now s))
  = Some (mkLoc la lo (Some now0)).
Proof. unfold geoSuccess. rewrite useLocation_storage. reflexivity. Qed.

Lemma fetchDone_empty (key : string) (now : Z) (s : App) :
  storage (fetchDone key (OkBody (Some [])) now s) = storage s
  ∧ log (fetchDone key (OkBody (Some [])) now s) = ERenderEmpty NoPlaces :: log s.
Proof.
  unfold fetchDone, setBusy. simpl. destruct (findBtn s); split; reflexivity.
Qed.

(** C7, as amended.  A successful search whose result list is not empty
    overwrites the entry of its key, with the time of the write and the
    sorted list.  A successful search whose result list is empty shows
    the "no places" message and writes nothing.  Every successful
    geolocation read overwrites the location entry. *)
Theorem successful_reads_overwrite :
  (∀ (key : string) (p : Place) (rs : list Place) (now : Z) (s : App),
     nearby (storage (fetchDone key (OkBody (Some (p :: rs))) now s)) !! key
     = Some (mkRes (Some now) (Some (sortWith byRating (p :: rs)))))
  ∧ (∀ (key : string) (now : Z) (s : App),
       storage (fetchDone key (OkBody (Some [])) now s) = storage s
       ∧ log (fetchDone key (OkBody (Some [])) now s)
         = ERenderEmpty NoPlaces :: log s)
  ∧ (∀ (now0 now : Z) (la lo : Q) (s : App),
       cachedLocation (storage (geoSuccess now0 la lo now s))
       = Some (mkLoc la lo (Some now0))).
Proof.
  split; [| split].
  - intros key p rs now s.
    destruct (fetchDone_results key p rs now s) as [-> _].
    unfold setCachedResults. simpl. apply lookup_insert_eq.
  - apply fetchDone_empty.
  - apply geoSuccess_location.
Qed.

(** C7 as stated fails.  The search below succeeds with an empty list;
    afterwards there is still no entry under its key. *)
Lemma empty_search_not_cached :
  ∃ s1 s2,
    run [Click 1000000; GeoOk 1000000 here_lat here_lng 1001000] page = Some s1
    ∧ pendingFetch s1 = [cacheKey here_lat here_lng "cafe"]
    ∧ step (FetchDone (cacheKey here_lat here_lng "cafe")
                      (OkBody (Some [])) 1001300) s1 = Some s2
    ∧ log s2 = ERenderEmpty NoPlaces :: log s1
    ∧ nearby (storage s2) !! cacheKey here_lat here_lng "cafe" = None.
Proof.
  eexists _, _.
  split; [vm_compute; reflexivity |].
  split; [reflexivity |].
  split; [vm_compute; reflexivity |].
  split; [reflexivity |].
  vm_compute. reflexivity.
Qed.

(** ** The timestamp of the location entry *)

Lemma take_pending_head {A} `{EqDecision A} (x : A) (l : list A) :
  take_pending x (x :: l) = Some l.
Proof. simpl. by rewrite decide_True. Qed.

Lemma getLocation_asks (now : Z) (s : App) :
  gateClosed now s = false → locationFresh now s = false →
  getLocation now s = askProvider now s.
Proof.
  intros Hg Hf. rewrite (getLocation_open _ _ Hg).
  unfold locationFresh in Hf.
  destruct (cachedLocation (storage s)) as [c |]; [| reflexivity].
  by rewrite Hf.
Qed.

(** C6, as amended.  The location entry carries the clock reading that
    [getLocation] took when the request was made: a click at [now] that
    reaches the provider, answered at any time [now'], leaves an entry
    with [timestamp = now]. *)
Theorem location_timestamp (now now' : Z) (la lo : Q) (s : App) :
  gateClosed now s = false →
  locationFresh now s = false →
  geolocation s = true →
  ∃ s', run [Click now; GeoOk now la lo now'] s = Some s'
        ∧ cachedLocation (storage s') = Some (mkLoc la lo (Some now)).
Proof.
  intros Hg Hf Hgeo.
  eexists. split; [| apply (geoSuccess_location now now' la lo)].
  simpl. rewrite (getLocation_asks _ _ Hg Hf).
  unfold askProvider. rewrite Hgeo.
  unfold requestPosition at 1. simpl pendingGeo.
  rewrite take_pending_head. reflexivity.
Qed.

Lemma location_timestamp_witness :
  ∃ s', run [Click 1000000; GeoOk 1000000 here_lat here_lng 1003000] page = Some s'
        ∧ cachedLocation (storage s')
          = Some (mkLoc here_lat here_lng (Some 1000000)).
Proof.
  apply (location_timestamp 1000000 1003000 here_lat here_lng page);
    reflexivity.
Defined.

(** C6 as stated fails.  The position asked for at 1000000 is delivered
    at 1003000; the entry written then is stamped 1000000. *)
Lemma location_timestamp_counterexample :
  ∃ s', run [Click 1000000; GeoOk 1000000 here_lat here_lng 1003000] page = Some s'
        ∧ (timestamp <$> cachedLocation (storage s')) = Some (Some 1000000)
        ∧ (timestamp <$> cachedLocation (storage s')) ≠ Some (Some 1003000).
Proof.
  eexists. split; [vm_compute; reflexivity |].
  split; [reflexivity | discriminate].
Qed.

(** ** The saved lists *)

Lemma find_hasId_None (id : string) (l : list SavedRecord) :
  List.find (hasId id) l = None ↔ id ∉ ids l.
Proof.
  induction l as [| p l IH]; simpl.
  - split; [intros _; apply not_elem_of_nil | done].
  - unfold hasId at 1. rewrite not_elem_of_cons. case_bool_decide as E.
    + split; [done | intros [Hne _]; by destruct Hne].
    + rewrite IH. split; [intros ?; split; [congruence | done] | tauto].
Qed.

Lemma savePlace_present (place : SavedRecord) (s : App) :
  saved_place_id place ∈ ids (currentSaved s) →
  savePlace place s = emit (EAlertAlready place (currentType s)) s.
Proof.
  intros Hin. unfold savePlace. fold (currentSaved s).
  destruct (List.find _ _) eqn:E; [reflexivity |].
  apply find_hasId_None in E. contradiction.
Qed.

Lemma savePlace_absent (place : SavedRecord) (s : App) :
  saved_place_id place ∉ ids (currentSaved s) →
  savePlace place s
  = emit (EAlertSaved place (currentType s))
      (with_storage (setSaved (savedKey (currentType s))
                              (currentSaved s ++ [place])) s).
Proof.
  intros Hin. unfold savePlace. fold (currentSaved s).
  apply find_hasId_None in Hin. by rewrite Hin.
Qed.

Lemma ids_filter_out (id : string) (l : list SavedRecord) :
  id ∉ ids (List.filter (λ p, negb (hasId id p)) l).
Proof.
  induction l as [| p l IH]; simpl; [apply not_elem_of_nil |].
  unfold hasId at 1. case_bool_decide as E; simpl; [done |].
  rewrite not_elem_of_cons. split; [congruence | done].
Qed.

Lemma filter_out_absent (id : string) (l : list SavedRecord) :
  id ∉ ids l → List.filter (λ p, negb (hasId id p)) l = l.
Proof.
  induction l as [| p l IH]; simpl; [done |].
  rewrite not_elem_of_cons. intros [Hne Hl].
  unfold hasId at 1. rewrite bool_decide_false by congruence. simpl.
  by rewrite IH.
Qed.

Lemma ids_filter_sub (id x : string) (l : list SavedRecord) :
  x ∈ ids (List.filter (λ p, negb (hasId id p)) l) → x ∈ ids l.
Proof.
  induction l as [| p l IH]; simpl; [done |].
  destruct (negb (hasId id p)); simpl; rewrite !elem_of_cons; tauto.
Qed.

Lemma NoDup_ids_filter (id : string) (l : list SavedRecord) :
  NoDup (ids l) → NoDup (ids (List.filter (λ p, negb (hasId id p)) l)).
Proof.
  induction l as [| p l IH]; simpl; [done |].
  rewrite NoDup_cons. intros [Hp Hl].
  destruct (negb (hasId id p)); simpl; [| by apply IH].
  apply NoDup_cons. split; [| by apply IH].
  intros Hin. apply Hp. by eapply ids_filter_sub.
Qed.

Lemma NoDup_ids_snoc (place : SavedRecord) (l : list SavedRecord) :
  NoDup (ids l) → saved_place_id place ∉ ids l → NoDup (ids (l ++ [place])).
Proof.
  intros Hl Hp. unfold ids. rewrite map_app. simpl.
  apply NoDup_app. split; [done |]. split; [| apply NoDup_singleton].
  intros x Hx Hx'. apply list_elem_of_singleton in Hx'. by subst.
Qed.

Lemma parsedSaved_unique (k : string) (st : Storage) :
  saved_unique st → NoDup (ids (parsedSaved k st)).
Proof.
  intros Hu. unfold parsedSaved.
  destruct (saved st !! k) as [l |] eqn:E; simpl; [by eapply Hu | constructor].
Qed.

Lemma setSaved_unique (k : string) (l : list SavedRecord) (st : Storage) :
  saved_unique st → NoDup (ids l) → saved_unique (setSaved k l st).
Proof.
  intros Hu Hl k' l'. unfold setSaved. simpl.
  rewrite lookup_insert. case_decide; [congruence | apply Hu].
Qed.

Lemma savePlace_unique (place : SavedRecord) (s : App) :
  saved_unique (storage s) → saved_unique (storage (savePlace place s)).
Proof.
  intros Hu.
  destruct (decide (saved_place_id place ∈ ids (currentSaved s))) as [Hin | Hin].
  - by rewrite savePlace_present.
  - rewrite savePlace_absent by done. simpl.
    apply setSaved_unique; [done |].
    apply NoDup_ids_snoc; [by apply parsedSaved_unique | done].
Qed.

Lemma removeSaved_unique (id : string) (s : App) :
  saved_unique (storage s) → saved_unique (storage (removeSaved id s)).
Proof.
  intros Hu. unfold removeSaved. simpl.
  apply setSaved_unique; [done |].
  apply NoDup_ids_filter. by apply parsedSaved_unique.
Qed.

Lemma fetchDone_saved (key : string) (r : Response) (now : Z) (s : App) :
  saved (storage (fetchDone key r now s)) = saved (storage s).
Proof.
  unfold fetchDone, setBusy.
  destruct r as [| msg | | [[| p rs] |]]; simpl;
    destruct (findBtn s); reflexivity.
Qed.

Lemma getLocation_storage (now : Z) (s : App) :
  storage (getLocation now s) = storage s.
Proof.
  unfold getLocation.
  repeat (case_match; try rewrite useLocation_storage; try reflexivity).
Qed.

Lemma step_saved (e : Event) (s s' : App) :
  step e s = Some s' →
  (∀ place, e ≠ SwipeSave place) → (∀ id, e ≠ SwipeRemove id) →
  saved (storage s') = saved (storage s).
Proof.
  intros Hstep Hs Hr.
  destruct e; simpl in Hstep; repeat case_match; simplify_eq.
  - by rewrite getLocation_storage.
  - unfold onTypeChange. by rewrite getLocation_storage.
  - unfold geoSuccess. by rewrite useLocation_storage.
  - unfold geoError, setBusy. simpl. by case_match.
  - by rewrite fetchDone_saved.
  - reflexivity.
  - by destruct (Hs place).
  - by destruct (Hr id).
  - reflexivity.
Qed.

Lemma step_unique (e : Event) (s s' : App) :
  saved_unique (storage s) → step e s = Some s' → saved_unique (storage s').
Proof.
  intros Hu Hstep.
  destruct e as [| | | | | | place | id |];
    try (intros k l; rewrite (step_saved _ _ _ Hstep) by done; apply Hu).
  - simpl in Hstep. simplify_eq. by apply savePlace_unique.
  - simpl in Hstep. simplify_eq. by apply removeSaved_unique.
Qed.

Lemma run_unique (evs : list Event) (s s' : App) :
  saved_unique (storage s) → run evs s = Some s' → saved_unique (storage s').
Proof.
  revert s. induction evs as [| e evs IH]; intros s Hu Hrun; simpl in Hrun.
  - by simplify_eq.
  - destruct (step e s) as [s1 |] eqn:E; [| done].
    eapply IH; [| exact Hrun]. by eapply step_unique.
Qed.

(** C9.  Saving a place whose id is already in the list of the current
    category changes nothing in the storage, and saving a new id appends
    the place.  From a page whose lists hold no id twice (a new page has
    none), no sequence of events leads to a list that does.  Removing an
    id stores the list filtered of it: the id is gone, and when it was
    not there every list reads as before. *)
Theorem saved_ids_unique :
  (∀ (place : SavedRecord) (s : App),
     saved_place_id place ∈ ids (currentSaved s) →
     storage (savePlace place s) = storage s)
  ∧ (∀ (place : SavedRecord) (s : App),
       saved_place_id place ∉ ids (currentSaved s) →
       currentSaved (savePlace place s) = currentSaved s ++ [place])
  ∧ (∀ (evs : list Event) (s s' : App) (k : string),
       saved_unique (storage s) → run evs s = Some s' →
       NoDup (ids (parsedSaved k (storage s'))))
  ∧ (∀ (id : string) (s : App),
       currentSaved (removeSaved id s)
       = List.filter (λ p, negb (hasId id p)) (currentSaved s)
       ∧ id ∉ ids (currentSaved (removeSaved id s)))
  ∧ (∀ (id : string) (s : App) (k : string),
       id ∉ ids (currentSaved s) →
       parsedSaved k (storage (removeSaved id s)) = parsedSaved k (storage s)).
Proof.
  assert (Hrm : ∀ id s, currentSaved (removeSaved id s)
      = List.filter (λ p, negb (hasId id p)) (currentSaved s)).
  { intros id s. unfold currentSaved, removeSaved, parsedSaved, setSaved.
    simpl. by rewrite lookup_insert_eq. }
  split; [| split; [| split; [| split]]].
  - intros place s Hin. by rewrite savePlace_present.
  - intros place s Hin. rewrite savePlace_absent by done.
    unfold currentSaved at 1, parsedSaved, setSaved. simpl.
    by rewrite lookup_insert_eq.
  - intros evs s s' k Hu Hrun.
    apply parsedSaved_unique. by eapply run_unique.
  - intros id s. rewrite Hrm. split; [done | apply ids_filter_out].
  - intros id s k Hin.
    unfold removeSaved, parsedSaved at 1, setSaved. simpl.
    rewrite lookup_insert. case_decide as E; [| done].
    subst k. simpl. fold (currentSaved s). by apply filter_out_absent.
Qed.

Lemma saved_ids_unique_witness :
  storage (savePlace saved_a_again page_saved) = storage page_saved
  ∧ currentSaved (savePlace saved_c page_saved) = [saved_a; saved_c]
  ∧ (∃ s', run some_swipes page = Some s'
           ∧ NoDup (ids (parsedSaved (savedKey "cafe") (storage s'))))
  ∧ parsedSaved (savedKey "cafe") (storage (removeSaved "p-zz" page_saved))
    = [saved_a].
Proof.
  split; [| split; [| split]].
  - apply (proj1 saved_ids_unique saved_a_again page_saved).
    vm_compute. apply list_elem_of_here.
  - apply (proj1 (proj2 saved_ids_unique) saved_c page_saved).
    vm_compute. intros H. apply list_elem_of_singleton in H. discriminate.
  - fold some_swipes.
    destruct (run some_swipes page) as [s' |] eqn:Hrun;
      [| vm_compute in Hrun; discriminate].
    exists s'. split; [reflexivity |].
    apply (proj1 (proj2 (proj2 saved_ids_unique))
             some_swipes page s' (savedKey "cafe")); [| exact Hrun].
    intros k l Hk. vm_compute in Hk. discriminate.
  - apply (proj2 (proj2 (proj2 (proj2 saved_ids_unique)))
             "p-zz" page_saved (savedKey "cafe")).
    vm_compute. intros H. apply list_elem_of_singleton in H. discriminate.
Defined.

(** ** The gate *)

Lemma useLocation_gate_step (now : Z) (la lo : Q) (s : App) :
  gate_step s (useLocation now la lo s).
Proof.
  unfold useLocation.
  destruct (getCachedResults _ _ _) as [d |].
  - left. unfold setBusy. simpl. destruct (findBtn s); split; reflexivity.
  - destruct (gateClosed now s) eqn:Hg; [left; split; reflexivity |].
    right. apply gateOpen_iff in Hg as [Hf Hgap].
    unfold setBusy. simpl. destruct (findBtn s); simpl; repeat split; done.
Qed.

Lemma gate_step_after (s0 s s' : App) :
  lastRequestAt s = lastRequestAt s0 →
  fetchTimes (log s) = fetchTimes (log s0) →
  inFlight s = inFlight s0 →
  gate_step s s' → gate_step s0 s'.
Proof.
  intros Hl Hf Hi [[H1 H2] | (H1 & H2 & H3)]; [left | right].
  - split; congruence.
  - rewrite <- Hl, <- Hf, <- Hi. repeat split; done.
Qed.

Lemma getLocation_gate_step (now : Z) (s : App) :
  gate_step s (getLocation now s).
Proof.
  destruct (gateClosed now s) eqn:Hg.
  - rewrite getLocation_gated by done. left. split; reflexivity.
  - rewrite getLocation_open by done.
    assert (gate_step s (askProvider now s)) as Hask.
    { unfold askProvider. destruct (geolocation s); left; split; reflexivity. }
    destruct (cachedLocation (storage s)) as [c |]; [| exact Hask].
    destruct (fresh _ _ _); [| exact Hask].
    eapply gate_step_after; [| | | apply useLocation_gate_step]; reflexivity.
Qed.

Lemma fetchDone_gate (key : string) (r : Response) (now : Z) (s : App) :
  lastRequestAt (fetchDone key r now s) = lastRequestAt s
  ∧ fetchTimes (log (fetchDone key r now s)) = fetchTimes (log s)
  ∧ inFlight (fetchDone key r now s) = false.
Proof.
  unfold fetchDone, setBusy.
  destruct r as [| msg | | [[| p rs] |]]; simpl;
    destruct (findBtn s); repeat split; reflexivity.
Qed.

Lemma step_no_search (e : Event) (s s' : App) :
  step e s = Some s' → no_search e = true →
  lastRequestAt s' = lastRequestAt s
  ∧ fetchTimes (log s') = fetchTimes (log s).
Proof.
  intros Hstep Hn.
  destruct e; try discriminate; simpl in Hstep;
    repeat case_match; simplify_eq.
  - unfold geoError, setBusy. simpl. case_match; split; reflexivity.
  - destruct (fetchDone_gate key r now (with_pendingFetch l s)) as (? & ? & _).
    split; done.
  - split; reflexivity.
  - unfold savePlace. case_match; split; reflexivity.
  - split; reflexivity.
  - split; reflexivity.
Qed.

Lemma run_no_search (evs : list Event) (s s' : App) :
  run evs s = Some s' → forallb no_search evs = true →
  lastRequestAt s' = lastRequestAt s
  ∧ fetchTimes (log s') = fetchTimes (log s).
Proof.
  revert s. induction evs as [| e evs IH]; intros s Hrun Hn; simpl in *.
  - by simplify_eq.
  - apply andb_true_iff in Hn as [He Hn].
    destruct (step e s) as [s1 |] eqn:E; [| done].
    destruct (step_no_search _ _ _ E He) as [H1 H2].
    destruct (IH _ Hrun Hn) as [H3 H4]. split; congruence.
Qed.

Lemma step_gate_step (e : Event) (s s' : App) :
  step e s = Some s' → gate_step s s'.
Proof.
  intros Hstep. destruct (no_search e) eqn:Hn.
  - left. by eapply step_no_search.
  - destruct e; try discriminate; simpl in Hstep;
      repeat case_match; simplify_eq.
    + apply getLocation_gate_step.
    + unfold onTypeChange.
      eapply gate_step_after; [| | | apply getLocation_gate_step]; reflexivity.
    + unfold geoSuccess.
      eapply gate_step_after; [| | | apply useLocation_gate_step]; reflexivity.
Qed.

Lemma gate_step_inv (s s' : App) : gate_inv s → gate_step s s' → gate_inv s'.
Proof.
  intros [Hsp Hle] [[H1 H2] | (_ & H1 & H2)]; unfold gate_inv.
  - rewrite H1, H2. done.
  - rewrite H2. simpl. unfold REQUEST_GAP_MS in *. repeat split.
    + eapply Forall_impl; [exact Hle |]. simpl. intros u Hu. lia.
    + done.
    + constructor; [lia |].
      eapply Forall_impl; [exact Hle |]. simpl. intros u Hu. lia.
Qed.

Lemma run_gate_inv (evs : list Event) (s s' : App) :
  gate_inv s → run evs s = Some s' → gate_inv s'.
Proof.
  revert s. induction evs as [| e evs IH]; intros s Hi Hrun; simpl in Hrun.
  - by simplify_eq.
  - destruct (step e s) as [s1 |] eqn:E; [| done].
    eapply IH; [| exact Hrun].
    eapply gate_step_inv; [exact Hi |]. by eapply step_gate_step.
Qed.

(** On any page, whatever happens on it, two upstream calls are never
    less than 2.5 s apart. *)
Lemma upstream_calls_spaced (evs : list Event) (st : Storage) (type : string)
  (btn geo : bool) (s' : App) :
  run evs (initial st type btn geo) = Some s' → spaced (fetchTimes (log s')).
Proof.
  intros Hrun. eapply (run_gate_inv evs _ s'); [| exact Hrun].
  split; simpl; constructor.
Qed.

Lemma useLocation_adds_one (now : Z) (la lo : Q) (s : App) :
  (length (fetchTimes (log (useLocation now la lo s)))
   ≤ S (length (fetchTimes (log s))))%nat.
Proof.
  destruct (useLocation_gate_step now la lo s) as [[_ ->] | (_ & _ & ->)];
    simpl; lia.
Qed.

(** C2.  A search request is a call of [useLocation]; it is issued at
    the clock reading of its task.  Whenever [inFlight] is set or less
    than 2.5 s have passed since [lastRequestAt], a request that the
    cache does not satisfy changes nothing at all: no call, no change of
    state, so nothing is kept to be run later; [getLocation] under the
    same condition only marks the view.  Of two requests less than 2.5 s
    apart, with any callbacks in between and neither satisfied by the
    cache, at most one calls upstream; when the first does, the second is
    the one dropped, and so is a click that comes that soon.  On any
    page, whatever the events, two upstream calls are at least 2.5 s
    apart. *)
Theorem gate_drops_second_request :
  (∀ (now : Z) (la lo : Q) (s : App),
     inFlight s = true ∨ now - lastRequestAt s < 2500 →
     getCachedResults now (cacheKey la lo (currentType s)) (storage s) = None →
     useLocation now la lo s = s)
  ∧ (∀ (now : Z) (s : App),
       inFlight s = true ∨ now - lastRequestAt s < 2500 →
       getLocation now s = view s)
  ∧ (∀ (t1 t2 : Z) (la1 lo1 la2 lo2 : Q) (evs : list Event) (s s1 : App),
       t2 - t1 < 2500 →
       forallb no_search evs = true →
       getCachedResults t1 (cacheKey la1 lo1 (currentType s)) (storage s) = None →
       run evs (useLocation t1 la1 lo1 s) = Some s1 →
       getCachedResults t2 (cacheKey la2 lo2 (currentType s1)) (storage s1) = None →
       let s2 := useLocation t2 la2 lo2 s1 in
       (length (fetchTimes (log s2)) ≤ S (length (fetchTimes (log s))))%nat
       ∧ (gateClosed t1 s = false →
          fetchTimes (log s1) = t1 :: fetchTimes (log s)
          ∧ s2 = s1
          ∧ getLocation t2 s1 = view s1))
  ∧ (∀ (evs : list Event) (st : Storage) (type : string) (btn geo : bool)
       (s' : App),
       run evs (initial st type btn geo) = Some s' →
       spaced (fetchTimes (log s'))).
Proof.
  split; [| split; [| split]]; [| | | apply upstream_calls_spaced].
  - intros now la lo s Hc Hm. apply useLocation_dropped; [done |].
    by apply gateClosed_iff.
  - intros now s Hc. apply getLocation_gated. by apply gateClosed_iff.
  - intros t1 t2 la1 lo1 la2 lo2 evs s s1 Ht Hev Hm1 Hrun Hm2 s2.
    destruct (run_no_search _ _ _ Hrun Hev) as [Hl Hf].
    destruct (gateClosed t1 s) eqn:Hg.
    + rewrite (useLocation_dropped _ _ _ _ Hm1 Hg) in Hl, Hf.
      split; [| done]. subst s2. rewrite <- Hf. apply useLocation_adds_one.
    + rewrite (useLocation_admitted _ _ _ _ Hm1 Hg) in Hl, Hf.
      assert (lastRequestAt s1 = t1) as Hl1.
      { rewrite Hl. unfold setBusy. simpl. by destruct (findBtn s). }
      assert (fetchTimes (log s1) = t1 :: fetchTimes (log s)) as Hf1.
      { rewrite Hf. unfold setBusy. simpl. by destruct (findBtn s). }
      assert (gateClosed t2 s1 = true) as Hg2.
      { apply gateClosed_iff. right. rewrite Hl1. unfold REQUEST_GAP_MS. lia. }
      assert (s2 = s1) as Hs2 by (by apply useLocation_dropped).
      split.
      * rewrite Hs2, Hf1. simpl. lia.
      * intros _. split; [done |]. split; [done |].
        by apply getLocation_gated.
Qed.

Lemma gate_drops_second_request_witness :
  useLocation 1000100 here_lat here_lng (with_inFlight true page)
  = with_inFlight true page
  ∧ getLocation 1002000 (with_lastRequestAt 1000000 page)
    = view (with_lastRequestAt 1000000 page)
  ∧ ∃ s1,
      run [FetchDone (cacheKey here_lat here_lng "cafe") (OkBody (Some [])) 1000400]
          (useLocation 1000000 here_lat here_lng page) = Some s1
      ∧ fetchTimes (log s1) = [1000000]
      ∧ useLocation 1002499 here_lat here_lng s1 = s1
      ∧ getLocation 1002499 s1 = view s1
      ∧ ∃ s2, run two_searches page = Some s2
              ∧ fetchTimes (log s2) = [1004000; 1001000]
              ∧ spaced (fetchTimes (log s2)).
Proof.
  split; [| split].
  - apply (proj1 gate_drops_second_request 1000100 here_lat here_lng
             (with_inFlight true page)); [left; reflexivity | reflexivity].
  - apply (proj1 (proj2 gate_drops_second_request) 1002000
             (with_lastRequestAt 1000000 page)).
    right. simpl. lia.
  - destruct (run [FetchDone (cacheKey here_lat here_lng "cafe")
                             (OkBody (Some [])) 1000400]
                  (useLocation 1000000 here_lat here_lng page))
      as [s1 |] eqn:Hrun; [| vm_compute in Hrun; discriminate].
    exists s1. split; [reflexivity |].
    assert (getCachedResults 1002499
              (cacheKey here_lat here_lng (currentType s1)) (storage s1) = None)
      as Hmiss.
    { vm_compute in Hrun. injection Hrun as <-. vm_compute. reflexivity. }
    destruct (proj1 (proj2 (proj2 gate_drops_second_request))
                1000000 1002499 here_lat here_lng here_lat here_lng
                [FetchDone (cacheKey here_lat here_lng "cafe")
                           (OkBody (Some [])) 1000400] page s1)
      as [_ (H1 & H2 & H3)];
      [lia | reflexivity | reflexivity | exact Hrun | exact Hmiss
      | reflexivity |].
    split; [exact H1 |]. split; [exact H2 |]. split; [exact H3 |].
    destruct (run two_searches page) as [s2 |] eqn:Hrun2;
      [| vm_compute in Hrun2; discriminate].
    exists s2. split; [reflexivity |].
    split; [vm_compute in Hrun2; injection Hrun2 as <-; reflexivity |].
    apply (proj2 (proj2 (proj2 gate_drops_second_request))
             two_searches emptyStorage "cafe" true true s2).
    exact Hrun2.
Defined.

(** ** The watchdog *)

Lemma watchdog_fires (d now : Z) (s : App) :
  busyTimer s = Some d → d ≤ now → step (Watchdog now) s = Some (watchdog s).
Proof.
  intros Hb Hd. simpl. rewrite Hb.
  by rewrite (proj2 (Z.leb_le d now) Hd).
Qed.

(** C8, as amended.  On a page that has the Find button, a request that
    is marked in-flight arms a timer for 8 s later and disables the
    button.  When that timer fires, [inFlight] is cleared and the button
    enabled again, and from then on a request the cache does not satisfy
    is admitted exactly when 2.5 s have passed since [lastRequestAt];
    after the watchdog of the request itself that is always so.  The
    end of the [fetch], whatever the response, clears [inFlight] too. *)
Theorem watchdog_resets_gate :
  (∀ (now : Z) (la lo : Q) (b : bool) (s : App),
     findBtn s = Some b →
     getCachedResults now (cacheKey la lo (currentType s)) (storage s) = None →
     gateClosed now s = false →
     let s1 := useLocation now la lo s in
     inFlight s1 = true
     ∧ lastRequestAt s1 = now
     ∧ findBtn s1 = Some true
     ∧ busyTimer s1 = Some (now + 8000)
     ∧ ∀ now', now + 8000 ≤ now' →
         step (Watchdog now') s1 = Some (watchdog s1)
         ∧ ∀ now'', now' ≤ now'' → gateClosed now'' (watchdog s1) = false)
  ∧ (∀ (d now : Z) (s : App),
       busyTimer s = Some d → d ≤ now →
       step (Watchdog now) s = Some (watchdog s)
       ∧ inFlight (watchdog s) = false
       ∧ findBtn (watchdog s) = Some false
       ∧ busyTimer (watchdog s) = None
       ∧ ∀ now', gateClosed now' (watchdog s)
                 = (now' - lastRequestAt s <? 2500))
  ∧ (∀ (key : string) (r : Response) (now : Z) (s : App),
       inFlight (fetchDone key r now s) = false
       ∧ lastRequestAt (fetchDone key r now s) = lastRequestAt s).
Proof.
  split; [| split].
  - intros now la lo b s Hb Hm Hg s1. subst s1.
    rewrite (useLocation_admitted _ _ _ _ Hm Hg).
    unfold setBusy. simpl. rewrite Hb. simpl.
    split; [done |]. split; [done |]. split; [done |]. split; [done |].
    intros now' Hn. split.
    + simpl. unfold WATCHDOG_MS.
      by rewrite (proj2 (Z.leb_le (now + 8000) now') Hn).
    + intros now'' Hn'. apply gateOpen_iff. simpl.
      unfold REQUEST_GAP_MS. split; [done | lia].
  - intros d now s Hb Hd.
    split; [by eapply watchdog_fires |]. repeat split.
  - intros key r now s.
    destruct (fetchDone_gate key r now s) as (? & _ & ?). done.
Qed.

Lemma watchdog_resets_gate_witness :
  (let s1 := useLocation 1000000 here_lat here_lng page in
   inFlight s1 = true
   ∧ busyTimer s1 = Some 1008000
   ∧ step (Watchdog 1008000) s1 = Some (watchdog s1)
   ∧ gateClosed 1008000 (watchdog s1) = false)
  ∧ inFlight (watchdog (useLocation 1000000 here_lat here_lng page)) = false.
Proof.
  split.
  - destruct (proj1 watchdog_resets_gate 1000000 here_lat here_lng false page)
      as (H1 & _ & _ & H4 & H5); [reflexivity | reflexivity | reflexivity |].
    destruct (H5 1008000) as [H6 H7]; [lia |].
    split; [exact H1 |]. split; [exact H4 |]. split; [exact H6 |].
    apply H7. lia.
  - apply (proj1 (proj2 watchdog_resets_gate) 1008000 1008000
             (useLocation 1000000 here_lat here_lng page));
      [reflexivity | lia].
Defined.

(** C8 as stated fails, in two ways.  On a page without the Find button
    [setBusy] returns before it arms anything: the request below is
    marked in-flight, no timer exists, no watchdog can ever run, and as
    long as the [fetch] hangs every click is dropped.  On a page with the
    button, a [setBusy(false)] issued for another request clears the
    timer while the [fetch] is still out: two clicks ask for the
    position, the first answer starts the search at 1001000, the second
    request fails at 1008100, and at 1009000 there is no timer left;
    [inFlight] stays set and the click at 1020000 is dropped. *)
Lemma watchdog_counterexample :
  (∃ s1,
     run [Click 1000000; GeoOk 1000000 here_lat here_lng 1001000]
         page_no_button = Some s1
     ∧ inFlight s1 = true
     ∧ pendingFetch s1 = [cacheKey here_lat here_lng "cafe"]
     ∧ busyTimer s1 = None
     ∧ (∀ now, step (Watchdog now) s1 = None)
     ∧ getLocation 1020000 s1 = view s1)
  ∧ (∃ s1 s2,
       run [Click 1000000; Click 1000100;
            GeoOk 1000000 here_lat here_lng 1001000] page = Some s1
       ∧ inFlight s1 = true
       ∧ busyTimer s1 = Some 1009000
       ∧ step (GeoFail 1000100 1008100) s1 = Some s2
       ∧ inFlight s2 = true
       ∧ pendingFetch s2 = [cacheKey here_lat here_lng "cafe"]
       ∧ busyTimer s2 = None
       ∧ (∀ now, step (Watchdog now) s2 = None)
       ∧ getLocation 1020000 s2 = view s2).
Proof.
  split.
  - eexists. split; [vm_compute; reflexivity |].
    split; [reflexivity |]. split; [reflexivity |]. split; [reflexivity |].
    split; [intros now; reflexivity | reflexivity].
  - eexists _, _. split; [vm_compute; reflexivity |].
    split; [reflexivity |]. split; [reflexivity |].
    split; [vm_compute; reflexivity |].
    split; [reflexivity |]. split; [reflexivity |]. split; [reflexivity |].
    split; [intros now; reflexivity | reflexivity].
Qed.

(** ** The cache key *)

Lemma nearest_milli_bounds (x : Q) :
  let n := nearest_milli x in
  (2 * n - 1) * Z.pos (Qden x) ≤ 2000 * Z.abs (Qnum x)
  ∧ 2000 * Z.abs (Qnum x) < (2 * n + 1) * Z.pos (Qden x).
Proof.
  intros n. subst n. unfold nearest_milli.
  set (a := Z.abs (Qnum x)). set (d := Z.pos (Qden x)).
  assert (0 < 2 * d) as Hd by (subst d; lia).
  pose proof (Z.mul_div_le (2 * 1000 * a + d) (2 * d) Hd).
  pose proof (Z.mul_succ_div_gt (2 * 1000 * a + d) (2 * d) Hd).
  lia.
Qed.

(** [nearest_milli x / 1000] is within half a thousandth of [|x|], and a
    tie goes up. *)
Lemma nearest_milli_close (x : Q) :
  (inject_Z (nearest_milli x) - (1 # 2) <= 1000 * Qabs x)%Q
  ∧ (1000 * Qabs x < inject_Z (nearest_milli x) + (1 # 2))%Q.
Proof.
  pose proof (nearest_milli_bounds x) as H. simpl in H.
  destruct x as [n d]. simpl in *.
  set (m := nearest_milli (n # d)) in *. clearbody m.
  unfold Qle, Qlt. simpl. lia.
Qed.

(** C4, as amended.  The key is the pure function
    ["nearby:" + type + ":" + lat.toFixed(3) + "," + lng.toFixed(3)],
    where [toFixed(3)] writes the sign of a negative coordinate and the
    thousandth nearest to its magnitude (a tie going away from zero).
    So two pairs of coordinates that agree in sign and in nearest
    thousandth, or simply in their [toFixed(3)] texts, have the same key
    for every type. *)
Theorem cacheKey_derivation :
  (∀ (type : string) (la lo : Q),
     cacheKey la lo type
     = "nearby:" +:+ type +:+ ":" +:+ toFixed3 la +:+ "," +:+ toFixed3 lo)
  ∧ (∀ x : Q,
       (inject_Z (nearest_milli x) - (1 # 2) <= 1000 * Qabs x)%Q
       ∧ (1000 * Qabs x < inject_Z (nearest_milli x) + (1 # 2))%Q)
  ∧ (∀ (type : string) (la lo la' lo' : Q),
       is_negative la = is_negative la' → nearest_milli la = nearest_milli la' →
       is_negative lo = is_negative lo' → nearest_milli lo = nearest_milli lo' →
       cacheKey la lo type = cacheKey la' lo' type)
  ∧ (∀ (type : string) (la lo la' lo' : Q),
       toFixed3 la = toFixed3 la' → toFixed3 lo = toFixed3 lo' →
       cacheKey la lo type = cacheKey la' lo' type).
Proof.
  split; [reflexivity |]. split; [apply nearest_milli_close |]. split.
  - intros type la lo la' lo' Hs Hn Hs' Hn'.
    unfold cacheKey, toFixed3. by rewrite Hs, Hn, Hs', Hn'.
  - intros type la lo la' lo' Hla Hlo. unfold cacheKey. by rewrite Hla, Hlo.
Qed.

(** The scenario of the specification: 40.0001, -73.9999 and 40.0004,
    -73.9996 fall into one bucket. *)
Lemma cacheKey_derivation_witness :
  cacheKey (400001 # 10000) (-739999 # 10000) "cafe"
  = cacheKey (400004 # 10000) (-739996 # 10000) "cafe"
  ∧ cacheKey (400004 # 10000) (-739996 # 10000) "cafe"
    = cacheKey (40 # 1) (-74 # 1) "cafe".
Proof.
  split.
  - apply (proj1 (proj2 (proj2 cacheKey_derivation)) "cafe"); reflexivity.
  - apply (proj2 (proj2 (proj2 cacheKey_derivation)) "cafe");
      vm_compute; reflexivity.
Defined.

(** C4 as stated fails.  The key carries the prefix ["nearby:"], and
    [toFixed] rounds where the specification truncates: 40.0006 is
    written 40.001, not 40.000, so 40.0001 and 40.0006, equal when
    truncated to three decimals, have different keys. *)
Lemma cacheKey_counterexample :
  cacheKey (400006 # 10000) (-739999 # 10000) "cafe" = "nearby:cafe:40.001,-74.000"
  ∧ spec_key "cafe" (400006 # 10000) (-739999 # 10000) = "cafe:40.000,-73.999"
  ∧ spec_round3 (400001 # 10000) = spec_round3 (400006 # 10000)
  ∧ cacheKey (400001 # 10000) (-739999 # 10000) "cafe"
    ≠ cacheKey (400006 # 10000) (-739999 # 10000) "cafe".
Proof.
  split; [vm_compute; reflexivity |].
  split; [vm_compute; reflexivity |].
  split; [vm_compute; reflexivity |].
  intros H. vm_compute in H. discriminate.
Qed.

(** ** A timer needs the button *)

Lemma setBusy_button_inv (b : bool) (now : Z) (s : App) :
  button_inv s → button_inv (setBusy b now s).
Proof.
  unfold button_inv, setBusy. destruct (findBtn s) eqn:E; simpl; [done |].
  by rewrite E.
Qed.

Lemma useLocation_button_inv (now : Z) (la lo : Q) (s : App) :
  button_inv s → button_inv (useLocation now la lo s).
Proof.
  intros Hi. unfold useLocation.
  destruct (getCachedResults _ _ _); [by apply setBusy_button_inv |].
  destruct (gateClosed now s); [done |].
  unfold button_inv in *. simpl. unfold setBusy. simpl.
  destruct (findBtn s) eqn:E; simpl; [done | by rewrite E].
Qed.

Lemma getLocation_button_inv (now : Z) (s : App) :
  button_inv s → button_inv (getLocation now s).
Proof.
  intros Hi. destruct (gateClosed now s) eqn:Hg.
  - by rewrite getLocation_gated.
  - rewrite getLocation_open by done.
    assert (button_inv (askProvider now s)) as Hask.
    { unfold askProvider. by destruct (geolocation s). }
    destruct (cachedLocation (storage s)) as [c |]; [| exact Hask].
    destruct (fresh _ _ _); [| exact Hask].
    by apply useLocation_button_inv.
Qed.

Lemma step_button_inv (e : Event) (s s' : App) :
  button_inv s → step e s = Some s' → button_inv s'.
Proof.
  intros Hi Hstep.
  destruct e; simpl in Hstep; repeat case_match; simplify_eq.
  - by apply getLocation_button_inv.
  - unfold onTypeChange. by apply getLocation_button_inv.
  - unfold geoSuccess. by apply useLocation_button_inv.
  - unfold geoError.
    apply (setBusy_button_inv false now (with_pendingGeo l s)). exact Hi.
  - unfold fetchDone. apply setBusy_button_inv.
    destruct r as [| msg | | [[| p rs] |]]; exact Hi.
  - unfold button_inv, watchdog. simpl. discriminate.
  - unfold savePlace. case_match; exact Hi.
  - exact Hi.
  - exact Hi.
Qed.

Lemma timer_needs_button (evs : list Event) (st : Storage) (type : string)
  (btn geo : bool) (s' : App) :
  run evs (initial st type btn geo) = Some s' →
  is_Some (busyTimer s') → is_Some (findBtn s').
Proof.
  intros Hrun Ht.
  assert (button_inv s') as Hi.
  { clear Ht. revert Hrun.
    assert (button_inv (initial st type btn geo)) as H0 by (intros _; reflexivity).
    revert H0. generalize (initial st type btn geo) as s.
    induction evs as [| e evs IH]; intros s H0 Hrun; simpl in Hrun.
    - by simplify_eq.
    - destruct (step e s) as [s1 |] eqn:E; [| done].
      eapply IH; [| exact Hrun]. by eapply step_button_inv. }
  destruct (findBtn s') eqn:E; [done |].
  rewrite (Hi E) in Ht. by destruct Ht.
Qed.

(** * Further properties *)

(** ** The flag, the button and the timer *)

Ltac handlers :=
  unfold onTypeChange, geoSuccess, geoError in *;
  unfold getLocation, fetchDone in *;
  unfold useLocation, savePlace, removeSaved, showSaved, watchdog,
    requestPosition, setBusy in *;
  simpl in *.

Lemma step_flight_inv (e : Event) (s s' : App) :
  flight_inv s → step e s = Some s' → flight_inv s'.
Proof.
  unfold flight_inv. intros Hi Hstep.
  destruct e; simpl in Hstep; repeat case_match; simplify_eq; handlers;
    repeat (case_match; simpl in *; simplify_eq); try done; auto.
Qed.

Lemma step_timer_inv (e : Event) (s s' : App) :
  timer_inv s → step e s = Some s' → timer_inv s'.
Proof.
  unfold timer_inv. intros Hi Hstep.
  destruct e; simpl in Hstep; repeat case_match; simplify_eq; handlers;
    repeat (case_match; simpl in *; simplify_eq); try done; try congruence.
Qed.

Lemma run_flight_inv (evs : list Event) (s s' : App) :
  flight_inv s → run evs s = Some s' → flight_inv s'.
Proof.
  revert s. induction evs as [| e evs IH]; intros s Hi Hrun; simpl in Hrun.
  - by simplify_eq.
  - destruct (step e s) as [s1 |] eqn:E; [| done].
    eapply IH; [| exact Hrun]. by eapply step_flight_inv.
Qed.

Lemma run_timer_inv (evs : list Event) (s s' : App) :
  timer_inv s → run evs s = Some s' → timer_inv s'.
Proof.
  revert s. induction evs as [| e evs IH]; intros s Hi Hrun; simpl in Hrun.
  - by simplify_eq.
  - destruct (step e s) as [s1 |] eqn:E; [| done].
    eapply IH; [| exact Hrun]. by eapply step_timer_inv.
Qed.

(** X1.  On any page, after any events, [inFlight] is set only while a
    response to a [fetch] of this page is still owed: once every
    response has come, the flag is down. *)
Theorem inflight_means_fetch_pending (evs : list Event) (st : Storage)
  (type : string) (btn geo : bool) (s' : App) :
  run evs (initial st type btn geo) = Some s' →
  inFlight s' = true → pendingFetch s' ≠ [].
Proof.
  intros Hrun. apply (run_flight_inv evs (initial st type btn geo)); [| done].
  intros H. discriminate.
Qed.

(** X2.  On any page, after any events, the Find button is disabled
    exactly while the watchdog is armed, and an armed watchdog is due
    8000 ms after [lastRequestAt]: a disabled button is never left
    without the timer that enables it again. *)
Theorem disabled_button_has_watchdog (evs : list Event) (st : Storage)
  (type : string) (btn geo : bool) (s' : App) :
  run evs (initial st type btn geo) = Some s' →
  (findBtn s' = Some true ↔ is_Some (busyTimer s'))
  ∧ (∀ d, busyTimer s' = Some d → d = lastRequestAt s' + 8000).
Proof.
  intros Hrun.
  assert (timer_inv s') as Hi.
  { apply (run_timer_inv evs (initial st type btn geo)); [| done].
    unfold timer_inv, initial. simpl. by destruct btn. }
  unfold timer_inv, WATCHDOG_MS in Hi. split.
  - split.
    + intros Hb. rewrite Hb in Hi. rewrite Hi. by eexists.
    + intros [d Hd]. destruct (findBtn s') as [[|] |]; [done | | ]; congruence.
  - intros d Hd. destruct (findBtn s') as [[|] |]; congruence.
Qed.

Lemma inflight_means_fetch_pending_witness :
  ∃ s', run [Click 1000000; GeoOk 1000000 here_lat here_lng 1001000] page = Some s'
        ∧ inFlight s' = true
        ∧ pendingFetch s' ≠ [].
Proof.
  destruct (run [Click 1000000; GeoOk 1000000 here_lat here_lng 1001000] page)
    as [s' |] eqn:Hrun; [| vm_compute in Hrun; discriminate].
  assert (inFlight s' = true) as Hf.
  { pose proof Hrun as H. vm_compute in H. injection H as <-. reflexivity. }
  exists s'. split; [reflexivity |]. split; [exact Hf |].
  exact (inflight_means_fetch_pending
           [Click 1000000; GeoOk 1000000 here_lat here_lng 1001000]
           emptyStorage "cafe" true true s' Hrun Hf).
Defined.

Lemma disabled_button_has_watchdog_witness :
  ∃ s', run [Click 1000000; GeoOk 1000000 here_lat here_lng 1001000] page = Some s'
        ∧ (findBtn s' = Some true ↔ is_Some (busyTimer s'))
        ∧ (∀ d, busyTimer s' = Some d → d = lastRequestAt s' + 8000).
Proof.
  destruct (run [Click 1000000; GeoOk 1000000 here_lat here_lng 1001000] page)
    as [s' |] eqn:Hrun; [| vm_compute in Hrun; discriminate].
  exists s'. split; [reflexivity |].
  exact (disabled_button_has_watchdog
           [Click 1000000; GeoOk 1000000 here_lat here_lng 1001000]
           emptyStorage "cafe" true true s' Hrun).
Defined.

(** ** What the storage keeps *)

Lemma kept_refl (st : Storage) : kept st st.
Proof. repeat split; auto. Qed.

Lemma kept_trans (a b c : Storage) : kept a b → kept b c → kept a c.
Proof.
  intros (H1 & H2 & H3) (H4 & H5 & H6). repeat split; auto.
Qed.

Lemma kept_setCachedResults (now : Z) (k : string) (d : list Place) (st : Storage) :
  kept st (setCachedResults now k d st).
Proof.
  unfold setCachedResults. split; [done |]. split; [| done].
  intros k' Hk. simpl. rewrite lookup_insert. by case_decide.
Qed.

Lemma kept_setLocation (c : LocEntry) (st : Storage) : kept st (setLocation c st).
Proof. unfold setLocation. split; [by eexists |]. split; done. Qed.

Lemma kept_setSaved (k : string) (l : list SavedRecord) (st : Storage) :
  kept st (setSaved k l st).
Proof.
  unfold setSaved. split; [done |]. split; [done |].
  intros k' Hk. simpl. rewrite lookup_insert. by case_decide.
Qed.

Lemma fetchDone_storage (key : string) (r : Response) (now : Z) (s : App) :
  storage (fetchDone key r now s)
  = match resultsOf r with
    | [] => storage s
    | _ :: _ => setCachedResults now key (sortWith byRating (resultsOf r)) (storage s)
    end.
Proof.
  unfold fetchDone, setBusy.
  destruct r as [| msg | | [[| p rs] |]]; simpl;
    destruct (findBtn s); reflexivity.
Qed.

Lemma step_kept (e : Event) (s s' : App) :
  step e s = Some s' → kept (storage s) (storage s').
Proof.
  intros Hstep.
  destruct e; simpl in Hstep; repeat case_match; simplify_eq.
  - rewrite getLocation_storage. apply kept_refl.
  - unfold onTypeChange. rewrite getLocation_storage. apply kept_refl.
  - unfold geoSuccess. rewrite useLocation_storage. apply kept_setLocation.
  - unfold geoError, setBusy. simpl. case_match; apply kept_refl.
  - rewrite fetchDone_storage. simpl.
    destruct (resultsOf r); [apply kept_refl | apply kept_setCachedResults].
  - apply kept_refl.
  - unfold savePlace. case_match; [apply kept_refl | apply kept_setSaved].
  - apply kept_setSaved.
  - apply kept_refl.
Qed.

(** X3.  Nothing the page has stored is ever removed: after any events,
    the cached location is still there, and every result-cache key and
    every saved list that existed still exists.  Entries are only
    overwritten. *)
Theorem nothing_is_evicted (evs : list Event) (s s' : App) :
  run evs s = Some s' →
  (is_Some (cachedLocation (storage s)) → is_Some (cachedLocation (storage s')))
  ∧ (∀ k, is_Some (nearby (storage s) !! k) → is_Some (nearby (storage s') !! k))
  ∧ (∀ k, is_Some (saved (storage s) !! k) → is_Some (saved (storage s') !! k)).
Proof.
  revert s. induction evs as [| e evs IH]; intros s Hrun; simpl in Hrun.
  - simplify_eq. apply kept_refl.
  - destruct (step e s) as [s1 |] eqn:E; [| done].
    apply (kept_trans _ (storage s1)); [by eapply step_kept | by apply IH].
Qed.

Lemma nothing_is_evicted_witness :
  ∃ s', run (one_search ++ [SwipeSave saved_a; SwipeRemove "p-a"]) page_saved = Some s'
        ∧ is_Some (saved (storage s') !! savedKey "cafe").
Proof.
  destruct (run (one_search ++ [SwipeSave saved_a; SwipeRemove "p-a"]) page_saved)
    as [s' |] eqn:Hrun; [| vm_compute in Hrun; discriminate].
  exists s'. split; [reflexivity |].
  apply (proj2 (proj2 (nothing_is_evicted _ page_saved s' Hrun))).
  vm_compute. by eexists.
Defined.

(** X4.  A search that ends without results, whatever the reason (the
    network fails, the proxy answers with an error status, the body is
    not JSON, [results] is missing or empty), shows a message, clears
    [inFlight] and leaves the storage exactly as it was: a failed
    refresh never damages what is cached. *)
Theorem failed_search_keeps_cache (key : string) (r : Response) (now : Z) (s : App) :
  resultsOf r = [] →
  storage (fetchDone key r now s) = storage s
  ∧ inFlight (fetchDone key r now s) = false
  ∧ ∃ m, log (fetchDone key r now s) = ERenderEmpty m :: log s.
Proof.
  intros Hr. split; [by rewrite fetchDone_storage, Hr |].
  split; [apply fetchDone_gate |].
  unfold fetchDone, setBusy.
  destruct r as [| msg | | [[| p rs] |]]; simpl in *; try discriminate;
    destruct (findBtn s); simpl; by eexists.
Qed.

Lemma failed_search_keeps_cache_witness :
  storage (fetchDone "k" (HttpError "Upstream failed") 1000500 page_busy)
  = storage page_busy
  ∧ inFlight (fetchDone "k" (HttpError "Upstream failed") 1000500 page_busy) = false
  ∧ ∃ m, log (fetchDone "k" (HttpError "Upstream failed") 1000500 page_busy)
         = ERenderEmpty m :: log page_busy.
Proof.
  apply (failed_search_keeps_cache "k" (HttpError "Upstream failed")
           1000500 page_busy).
  reflexivity.
Defined.

(** ** Buckets and types *)

Lemma fetchDone_currentType (key : string) (r : Response) (now : Z) (s : App) :
  currentType (fetchDone key r now s) = currentType s.
Proof.
  unfold fetchDone, setBusy.
  destruct r as [| msg | | [[| p rs] |]]; simpl;
    destruct (findBtn s); reflexivity.
Qed.

Lemma cache_hit_log (now T : Z) (la lo : Q) (e : ResEntry) (d : list Place)
  (s : App) :
  nearby (storage s) !! cacheKey la lo (currentType s) = Some e →
  ts e = Some T → T ≠ 0 → now - T < RESULT_TTL → data e = Some d →
  log (useLocation now la lo s) = EDisplay d :: log s
  ∧ pendingFetch (useLocation now la lo s) = pendingFetch s
  ∧ storage (useLocation now la lo s) = storage s.
Proof.
  intros Hk Hts HT Hage Hd. unfold useLocation.
  rewrite (getCachedResults_hit _ _ _ _ _ Hk Hts HT Hage), Hd.
  unfold setBusy. simpl. destruct (findBtn s); repeat split.
Qed.

(** X5.  After a successful search at [(la, lo)] has stored its results
    at time [T], a request for any [(la', lo')] with the same [toFixed(3)]
    texts, made for the same type less than 5 minutes later, displays
    the stored list and calls nothing upstream. *)
Theorem same_bucket_served_from_cache
  (T T' : Z) (la lo la' lo' : Q) (p : Place) (rs : list Place) (s : App) :
  T ≠ 0 → T' - T < 5 * 60 * 1000 →
  toFixed3 la = toFixed3 la' → toFixed3 lo = toFixed3 lo' →
  let s1 := fetchDone (cacheKey la lo (currentType s))
                      (OkBody (Some (p :: rs))) T s in
  let s2 := useLocation T' la' lo' s1 in
  log s2 = EDisplay (sortWith byRating (p :: rs)) :: log s1
  ∧ fetchTimes (log s2) = fetchTimes (log s1)
  ∧ pendingFetch s2 = pendingFetch s1
  ∧ storage s2 = storage s1.
Proof.
  intros HT Hage Hla Hlo s1 s2.
  assert (nearby (storage s1) !! cacheKey la' lo' (currentType s1)
          = Some (mkRes (Some T) (Some (sortWith byRating (p :: rs))))) as Hk.
  { subst s1. rewrite fetchDone_currentType.
    destruct (fetchDone_results (cacheKey la lo (currentType s)) p rs T s)
      as [-> _].
    unfold setCachedResults. simpl nearby.
    replace (cacheKey la' lo' (currentType s))
      with (cacheKey la lo (currentType s))
      by (unfold cacheKey; by rewrite Hla, Hlo).
    apply lookup_insert_eq. }
  destruct (cache_hit_log T' T la' lo' _ _ s1 Hk eq_refl HT Hage eq_refl)
    as (H1 & H2 & H3).
  subst s2. split; [exact H1 |]. split; [by rewrite H1 |]. split; done.
Qed.

Lemma same_bucket_served_from_cache_witness :
  let s1 := fetchDone (cacheKey (400001 # 10000) (-739999 # 10000) "cafe")
                      (OkBody (Some [place_b; place_a])) 1000000 page in
  let s2 := useLocation 1200000 (400004 # 10000) (-739996 # 10000) s1 in
  log s2 = EDisplay (sortWith byRating [place_b; place_a]) :: log s1
  ∧ fetchTimes (log s2) = fetchTimes (log s1)
  ∧ pendingFetch s2 = pendingFetch s1
  ∧ storage s2 = storage s1.
Proof.
  apply (same_bucket_served_from_cache 1000000 1200000
           (400001 # 10000) (-739999 # 10000) (400004 # 10000) (-739996 # 10000)
           place_b [place_a] page);
    [lia | lia | vm_compute; reflexivity | vm_compute; reflexivity].
Defined.

Lemma chars_app (a b : string) :
  chars (a +:+ b)
  = chars a ++ chars b.
Proof.
  unfold chars. induction a as [| c a IH]; [reflexivity |].
  change (String c a +:+ b) with (String c (a +:+ b)).
  simpl. by rewrite IH.
Qed.

Lemma chars_inj (a b : string) :
  chars a = chars b → a = b.
Proof.
  unfold chars. intros H.
  rewrite <- (Strings.String.string_of_list_ascii_of_string a),
          <- (Strings.String.string_of_list_ascii_of_string b).
  by rewrite H.
Qed.

Lemma append_same_suffix (a b r : string) : a +:+ r = b +:+ r → a = b.
Proof.
  intros H. apply chars_inj.
  apply (f_equal chars) in H. rewrite !chars_app in H.
  by apply app_inv_tail in H.
Qed.

Lemma cacheKey_type_inj (la lo : Q) (t1 t2 : string) :
  cacheKey la lo t1 = cacheKey la lo t2 → t1 = t2.
Proof.
  unfold cacheKey. intros H.
  apply (String.app_inj "nearby:") in H.
  by apply append_same_suffix in H.
Qed.

(** X6.  At one place, the keys of two different types differ, so
    storing the results of one type changes nothing for a lookup of the
    other: places of one type are never served for another. *)
Theorem types_do_not_share_results
  (now T : Z) (la lo : Q) (t1 t2 : string) (d : list Place) (st : Storage) :
  t1 ≠ t2 →
  cacheKey la lo t1 ≠ cacheKey la lo t2
  ∧ getCachedResults now (cacheKey la lo t2)
      (setCachedResults T (cacheKey la lo t1) d st)
    = getCachedResults now (cacheKey la lo t2) st.
Proof.
  intros Hne.
  assert (cacheKey la lo t1 ≠ cacheKey la lo t2) as Hk
    by (intros H; by apply cacheKey_type_inj in H).
  split; [exact Hk |].
  unfold getCachedResults, parsedResults, setCachedResults. simpl.
  by rewrite lookup_insert_ne.
Qed.

Lemma types_do_not_share_results_witness :
  cacheKey here_lat here_lng "cafe" ≠ cacheKey here_lat here_lng "bar"
  ∧ getCachedResults 1000100 (cacheKey here_lat here_lng "bar")
      (setCachedResults 1000000 (cacheKey here_lat here_lng "cafe")
                        [place_a] emptyStorage)
    = getCachedResults 1000100 (cacheKey here_lat here_lng "bar") emptyStorage.
Proof.
  apply (types_do_not_share_results 1000100 1000000 here_lat here_lng
           "cafe" "bar" [place_a] emptyStorage).
  discriminate.
Defined.

(** ** Changing the type *)

Lemma useLocation_currentType (now : Z) (la lo : Q) (s : App) :
  currentType (useLocation now la lo s) = currentType s.
Proof. frame. Qed.

Lemma getLocation_currentType (now : Z) (s : App) :
  currentType (getLocation now s) = currentType s.
Proof.
  destruct (gateClosed now s) eqn:Hg.
  - by rewrite getLocation_gated.
  - rewrite getLocation_open by done.
    assert (currentType (askProvider now s) = currentType s) as Hask.
    { unfold askProvider. by destruct (geolocation s). }
    destruct (cachedLocation (storage s)) as [c |]; [| exact Hask].
    destruct (fresh _ _ _); [| exact Hask].
    by rewrite useLocation_currentType.
Qed.

(** X7.  [onTypeChange] always switches the type, but the search the
    new type calls for goes through the same gate as a click.  With the
    gate closed nothing else happens: no lookup, no request, nothing
    displayed, so the cards of the old type stay.  With the gate open, a
    usable cached location and no cached results for the new type, the
    upstream call is made for the new type at the cached place. *)
Theorem type_change_is_gated :
  (∀ (val : string) (now : Z) (s : App),
     currentType (onTypeChange val now s) = val)
  ∧ (∀ (val : string) (now : Z) (s : App),
       gateClosed now s = true →
       onTypeChange val now s = view (view (with_currentType val s)))
  ∧ (∀ (val : string) (now T : Z) (c : LocEntry) (s : App),
       gateClosed now s = false →
       cachedLocation (storage s) = Some c →
       timestamp c = Some T → T ≠ 0 → now - T < 10 * 60 * 1000 →
       getCachedResults now (cacheKey (lat c) (lng c) val) (storage s) = None →
       log (onTypeChange val now s)
       = EFetch now val (lat c) (lng c)
           :: EView FindView :: EView FindView :: log s
       ∧ inFlight (onTypeChange val now s) = true
       ∧ lastRequestAt (onTypeChange val now s) = now).
Proof.
  split; [| split].
  - intros val now s. unfold onTypeChange. by rewrite getLocation_currentType.
  - intros val now s Hg. unfold onTypeChange.
    by rewrite getLocation_gated.
  - intros val now T c s Hg Hc Hts HT Hage Hm. unfold onTypeChange.
    rewrite getLocation_open by done. simpl storage. rewrite Hc, Hts.
    assert (fresh (Some T) now (CACHE_MINUTES * 60 * 1000) = true) as ->
      by (by apply fresh_Some).
    rewrite useLocation_admitted by done.
    unfold setBusy. simpl. destruct (findBtn s); repeat split.
Qed.

Lemma type_change_is_gated_witness :
  onTypeChange "bar" 1005100 page_located
  = view (view (with_currentType "bar" page_located))
  ∧ log (onTypeChange "bar" 1008000 page_located)
    = [EFetch 1008000 "bar" here_lat here_lng; EView FindView; EView FindView].
Proof.
  split.
  - apply (proj1 (proj2 type_change_is_gated) "bar" 1005100 page_located).
    reflexivity.
  - apply (proj2 (proj2 type_change_is_gated) "bar" 1008000 1000000
             (mkLoc here_lat here_lng (Some 1000000)) page_located);
      [reflexivity | reflexivity | reflexivity | lia | lia | reflexivity].
Defined.

(** ** More on the saved lists *)

Lemma savedKey_inj (t1 t2 : string) : savedKey t1 = savedKey t2 → t1 = t2.
Proof. unfold savedKey. apply (String.app_inj "saved:"). Qed.

Lemma savePlace_storage (place : SavedRecord) (s : App) :
  storage (savePlace place s)
  = if bool_decide (saved_place_id place ∈ ids (currentSaved s))
    then storage s
    else setSaved (savedKey (currentType s)) (currentSaved s ++ [place]) (storage s).
Proof.
  case_bool_decide as Hin.
  - by rewrite savePlace_present.
  - by rewrite savePlace_absent.
Qed.

Lemma savePlace_currentType (place : SavedRecord) (s : App) :
  currentType (savePlace place s) = currentType s.
Proof. unfold savePlace. by case_match. Qed.

Lemma savePlace_listed (place : SavedRecord) (s : App) :
  saved_place_id place ∈ ids (currentSaved (savePlace place s)).
Proof.
  unfold currentSaved at 1. rewrite savePlace_currentType, savePlace_storage.
  case_bool_decide as Hin; [exact Hin |].
  unfold parsedSaved, setSaved. simpl. rewrite lookup_insert_eq. simpl.
  unfold ids. rewrite map_app, elem_of_app. right. simpl. apply list_elem_of_here.
Qed.

(** X8.  Saving is idempotent on the id: once a place is saved, saving
    any record with the same id again (the second callback of one
    gesture, or another card of the same place) changes nothing in the
    storage. *)
Theorem save_again_changes_nothing (p p' : SavedRecord) (s : App) :
  saved_place_id p' = saved_place_id p →
  storage (savePlace p' (savePlace p s)) = storage (savePlace p s).
Proof.
  intros Hid. rewrite (savePlace_storage p').
  rewrite bool_decide_true; [done |].
  rewrite Hid. apply savePlace_listed.
Qed.

Lemma save_again_changes_nothing_witness :
  storage (savePlace saved_a_again (savePlace saved_a page))
  = storage (savePlace saved_a page).
Proof.
  apply (save_again_changes_nothing saved_a saved_a_again page). reflexivity.
Defined.

Lemma filter_out_snoc (p : SavedRecord) (l : list SavedRecord) :
  saved_place_id p ∉ ids l →
  List.filter (λ q, negb (hasId (saved_place_id p) q)) (l ++ [p]) = l.
Proof.
  intros Hin. rewrite List.filter_app. simpl.
  unfold hasId at 2. rewrite bool_decide_true by done. simpl.
  rewrite app_nil_r. by apply filter_out_absent.
Qed.

(** X9.  Removing a place that was just saved, and was not there
    before, gives back the list as it was, in the same order. *)
Theorem remove_undoes_save (p : SavedRecord) (s : App) :
  saved_place_id p ∉ ids (currentSaved s) →
  currentSaved (removeSaved (saved_place_id p) (savePlace p s)) = currentSaved s.
Proof.
  intros Hin. rewrite savePlace_absent by done.
  unfold removeSaved, currentSaved at 1, parsedSaved, setSaved. simpl.
  rewrite !lookup_insert_eq. simpl.
  by apply filter_out_snoc.
Qed.

Lemma remove_undoes_save_witness :
  currentSaved (removeSaved "p-c" (savePlace saved_c page_saved))
  = currentSaved page_saved.
Proof.
  apply (remove_undoes_save saved_c page_saved).
  vm_compute. intros H. apply list_elem_of_singleton in H. discriminate.
Defined.

(** X10.  Saving and removing touch the list of the current type only:
    the saved list of every other type reads as before. *)
Theorem other_types_untouched (t : string) (p : SavedRecord) (id : string) (s : App) :
  t ≠ currentType s →
  parsedSaved (savedKey t) (storage (savePlace p s))
  = parsedSaved (savedKey t) (storage s)
  ∧ parsedSaved (savedKey t) (storage (removeSaved id s))
    = parsedSaved (savedKey t) (storage s).
Proof.
  intros Hne.
  assert (savedKey (currentType s) ≠ savedKey t) as Hk
    by (intros H; apply savedKey_inj in H; congruence).
  split.
  - rewrite savePlace_storage. case_bool_decide; [done |].
    unfold parsedSaved, setSaved. simpl. by rewrite lookup_insert_ne.
  - unfold removeSaved, parsedSaved, setSaved. simpl.
    by rewrite lookup_insert_ne.
Qed.

Lemma other_types_untouched_witness :
  parsedSaved (savedKey "cafe")
    (storage (savePlace saved_c (with_currentType "bar" page_saved)))
  = [saved_a]
  ∧ parsedSaved (savedKey "cafe")
      (storage (removeSaved "p-a" (with_currentType "bar" page_saved)))
    = [saved_a].
Proof.
  apply (other_types_untouched "cafe" saved_c "p-a"
           (with_currentType "bar" page_saved)).
  discriminate.
Defined.

Lemma occurrences_absent (id : string) (l : list SavedRecord) :
  id ∉ ids l → occurrences id l = 0%nat.
Proof.
  unfold occurrences. induction l as [| q l IH]; simpl; [done |].
  rewrite not_elem_of_cons. intros [Hne Hl].
  unfold hasId at 1. rewrite bool_decide_false by congruence. by apply IH.
Qed.

Lemma occurrences_NoDup (id : string) (l : list SavedRecord) :
  NoDup (ids l) → id ∈ ids l → occurrences id l = 1%nat.
Proof.
  unfold occurrences. induction l as [| q l IH]; simpl.
  - intros _ H. by apply elem_of_nil in H.
  - rewrite NoDup_cons, elem_of_cons. intros [Hq Hl] Hin.
    unfold hasId at 1. case_bool_decide as E; simpl.
    + subst id. f_equal. by apply occurrences_absent.
    + destruct Hin as [-> | Hin]; [done | by apply IH].
Qed.

(** X11.  After a right swipe on the card of a place, when the list of
    the current type held no id twice, the id of the place occurs in
    that list exactly once, and the record stored for a new place
    carries the card's image address, which is never empty, and the
    rating shown on the card. *)
Theorem swiped_card_is_saved_once (place : Place) (s : App) :
  NoDup (ids (currentSaved s)) →
  occurrences (place_id place) (currentSaved (onSave place s)) = 1%nat
  ∧ imgUrl place ≠ EmptyString
  ∧ (place_id place ∉ ids (currentSaved s) →
     currentSaved (onSave place s)
     = currentSaved s
       ++ [mkSaved (name place) (place_id place) (imgUrl place)
                   (shownRating place)]).
Proof.
  intros Hnd. unfold onSave.
  set (rec := mkSaved (name place) (place_id place) (imgUrl place)
                      (shownRating place)).
  assert (currentSaved (savePlace rec s)
          = if bool_decide (place_id place ∈ ids (currentSaved s))
            then currentSaved s else currentSaved s ++ [rec]) as Hl.
  { unfold currentSaved at 1. rewrite savePlace_currentType, savePlace_storage.
    simpl. case_bool_decide; [done |].
    unfold parsedSaved, setSaved. simpl. by rewrite lookup_insert_eq. }
  split; [| split].
  - apply occurrences_NoDup.
    + rewrite Hl. case_bool_decide as Hin; [done |].
      by apply NoDup_ids_snoc.
    + apply (savePlace_listed rec s).
  - unfold imgUrl, placeholder. destruct (photo place) as [u |]; [| done].
    destruct (String.eqb u EmptyString) eqn:E; [done |].
    by apply String.eqb_neq in E.
  - intros Hin. rewrite Hl. by rewrite bool_decide_false.
Qed.

Lemma swiped_card_is_saved_once_witness :
  occurrences "p-a" (currentSaved (onSave place_a page_saved)) = 1%nat
  ∧ imgUrl place_a ≠ EmptyString.
Proof.
  destruct (swiped_card_is_saved_once place_a page_saved) as (H1 & H2 & _).
  - vm_compute. apply NoDup_singleton.
  - split; [exact H1 | exact H2].
Defined.

(** ** escapeHtml *)

Lemma append_cons (c : ascii) (a b : string) :
  String c a +:+ b = String c (a +:+ b).
Proof. reflexivity. Qed.

Lemma append_assoc (a b c : string) : (a +:+ b) +:+ c = a +:+ (b +:+ c).
Proof.
  induction a as [| x a IH]; [reflexivity |].
  rewrite !append_cons. by rewrite IH.
Qed.

Lemma replaceAll_app (c : ascii) (r a b : string) :
  replaceAll c r (a +:+ b) = replaceAll c r a +:+ replaceAll c r b.
Proof.
  induction a as [| x a IH]; [reflexivity |].
  rewrite append_cons. simpl. destruct (Ascii.eqb x c).
  - by rewrite IH, append_assoc.
  - by rewrite IH, append_cons.
Qed.

Lemma escapeHtml_app (a b : string) :
  escapeHtml (a +:+ b) = escapeHtml a +:+ escapeHtml b.
Proof. unfold escapeHtml. by rewrite !replaceAll_app. Qed.

Lemma escapeHtml_one (c : ascii) : escapeHtml (String c EmptyString) = escapeChar c.
Proof. destruct c as [[] [] [] [] [] [] [] []]; reflexivity. Qed.

(** The five passes amount to one pass that writes [escapeChar c] for
    every character [c]: no pass touches what an earlier one wrote. *)
Lemma escapeHtml_each (s : string) : escapeHtml s = escapeEach s.
Proof.
  induction s as [| c s IH]; [reflexivity |].
  change (String c s) with (String c EmptyString +:+ s).
  rewrite escapeHtml_app, escapeHtml_one, IH. reflexivity.
Qed.

Lemma escapeChar_cases (c : ascii) :
  (special c = false ∧ c ≠ "&"%char ∧ escapeChar c = String c EmptyString)
  ∨ (c = "&"%char ∧ escapeChar c = "&amp;")
  ∨ (c = "<"%char ∧ escapeChar c = "&lt;")
  ∨ (c = ">"%char ∧ escapeChar c = "&gt;")
  ∨ (c = dquote ∧ escapeChar c = "&quot;")
  ∨ (c = "'"%char ∧ escapeChar c = "&#039;").
Proof.
  destruct c as [[] [] [] [] [] [] [] []];
    first [ left; split; [reflexivity | split; [discriminate | reflexivity]]
          | right; left; split; reflexivity
          | right; right; left; split; reflexivity
          | right; right; right; left; split; reflexivity
          | right; right; right; right; left; split; reflexivity
          | right; right; right; right; right; split; reflexivity ].
Qed.

Lemma escapeChar_no_markup (c : ascii) :
  forallb (λ x, negb (markup x)) (chars (escapeChar c)) = true.
Proof. destruct c as [[] [] [] [] [] [] [] []]; reflexivity. Qed.

Lemma escapeEach_no_markup (s : string) :
  forallb (λ x, negb (markup x)) (chars (escapeEach s)) = true.
Proof.
  induction s as [| c s IH]; [reflexivity |].
  simpl. rewrite chars_app, forallb_app, escapeChar_no_markup, IH. reflexivity.
Qed.

(** X12.  The text [escapeHtml] returns contains none of the characters
    [<], [>], the double quote and the single quote, whatever it was
    given, so inside an element or a quoted attribute it cannot open a
    tag or close the attribute. *)
Theorem escapeHtml_no_markup (s : string) (c : ascii) :
  c ∈ chars (escapeHtml s) →
  c ≠ "<"%char ∧ c ≠ ">"%char ∧ c ≠ dquote ∧ c ≠ "'"%char.
Proof.
  rewrite escapeHtml_each. intros Hin.
  pose proof (escapeEach_no_markup s) as H.
  rewrite forallb_forall in H. apply list_elem_of_In in Hin.
  specialize (H c Hin). apply negb_true_iff in H.
  repeat split; intros ->; discriminate.
Qed.

Lemma escapeHtml_no_markup_witness :
  "s"%char ≠ "<"%char ∧ "s"%char ≠ ">"%char
  ∧ "s"%char ≠ dquote ∧ "s"%char ≠ "'"%char.
Proof.
  apply (escapeHtml_no_markup "<script>").
  vm_compute. apply list_elem_of_further, list_elem_of_further,
    list_elem_of_further, list_elem_of_further, list_elem_of_here.
Defined.

Lemma escapeChar_prefix (c d : ascii) (x y : string) :
  escapeChar c +:+ x = escapeChar d +:+ y → c = d ∧ x = y.
Proof.
  intros H.
  destruct (escapeChar_cases c)
    as [(_ & Hc & Ec) | [[-> Ec] | [[-> Ec] | [[-> Ec] | [[-> Ec] | [-> Ec]]]]]];
  destruct (escapeChar_cases d)
    as [(_ & Hd & Ed) | [[-> Ed] | [[-> Ed] | [[-> Ed] | [[-> Ed] | [-> Ed]]]]]];
  rewrite Ec, ?Ed in H; try (split; [reflexivity |]);
    try (by apply String.app_inj in H);
    try (injection H; intros; subst; by try congruence);
    try discriminate H.
Qed.

Lemma escapeChar_nonempty (c : ascii) : escapeChar c ≠ EmptyString.
Proof.
  destruct (escapeChar_cases c)
    as [(_ & _ & ->) | [[_ ->] | [[_ ->] | [[_ ->] | [[_ ->] | [_ ->]]]]]];
    discriminate.
Qed.

Lemma escapeEach_inj (s t : string) : escapeEach s = escapeEach t → s = t.
Proof.
  revert t.
  induction s as [| c s IH]; intros [| d t] H; simpl in H.
  - reflexivity.
  - pose proof (escapeChar_nonempty d) as Hd.
    destruct (escapeChar d); [done | discriminate].
  - pose proof (escapeChar_nonempty c) as Hc.
    destruct (escapeChar c); [done | discriminate].
  - apply escapeChar_prefix in H as [-> H]. f_equal. by apply IH.
Qed.

(** X13.  [escapeHtml] loses nothing: two different texts are escaped to
    different texts.  In particular a name that already looks escaped
    is not confused with the name it looks like. *)
Theorem escapeHtml_injective (s t : string) :
  s ≠ t → escapeHtml s ≠ escapeHtml t.
Proof.
  intros Hne Heq. apply Hne.
  rewrite !escapeHtml_each in Heq. by apply escapeEach_inj.
Qed.

Lemma escapeHtml_injective_witness :
  escapeHtml "a<b" ≠ escapeHtml "a&lt;b".
Proof. apply (escapeHtml_injective "a<b" "a&lt;b"). discriminate. Defined.

Lemma length_append (a b : string) :
  String.length (a +:+ b) = (String.length a + String.length b)%nat.
Proof.
  induction a as [| c a IH]; [reflexivity |].
  rewrite append_cons. simpl. by rewrite IH.
Qed.

Lemma escapeEach_length (s : string) :
  (String.length s ≤ String.length (escapeEach s))%nat.
Proof.
  induction s as [| c s IH]; simpl; [lia |].
  rewrite length_append.
  pose proof (escapeChar_nonempty c) as Hc.
  destruct (escapeChar c); [done | simpl; lia].
Qed.

(** X14.  [escapeHtml] returns a text unchanged exactly when the text
    contains none of [&], [<], [>], the double quote and the single
    quote; so escaping a text twice gives the same as escaping it once
    only for such texts. *)
Theorem escapeHtml_plain (s : string) :
  (escapeHtml s = s ↔ ∀ c, c ∈ chars s → special c = false)
  ∧ (escapeHtml (escapeHtml s) = escapeHtml s ↔ escapeHtml s = s).
Proof.
  assert (∀ s, escapeHtml s = s ↔ ∀ c, c ∈ chars s → special c = false) as Hplain.
  { clear s. intros s. rewrite escapeHtml_each.
    induction s as [| c s IH]; simpl.
    - split; [intros _ c Hc; by apply elem_of_nil in Hc | done].
    - split.
      + intros H x Hx.
        destruct (escapeChar_cases c)
          as [(Hs & _ & Ec) | [[-> Ec] | [[-> Ec] | [[-> Ec] | [[-> Ec] | [-> Ec]]]]]];
          rewrite Ec in H; try discriminate H.
        * injection H as H. apply elem_of_cons in Hx as [-> | Hx]; [done |].
          by apply IH.
        * exfalso. injection H as H. apply (f_equal String.length) in H.
          rewrite length_append in H. simpl in H.
          pose proof (escapeEach_length s). lia.
      + intros H.
        assert (special c = false) as Hc by (apply H, list_elem_of_here).
        destruct (escapeChar_cases c)
          as [(_ & _ & Ec) | [[-> _] | [[-> _] | [[-> _] | [[-> _] | [-> _]]]]]];
          try discriminate Hc.
        rewrite Ec. rewrite append_cons. f_equal.
        apply IH. intros x Hx. apply H. by apply list_elem_of_further. }
  split; [apply Hplain |].
  split.
  - intros H. rewrite !escapeHtml_each in H. apply escapeEach_inj in H.
    by rewrite escapeHtml_each.
  - intros H. by rewrite !H.
Qed.

Lemma escapeHtml_plain_witness :
  escapeHtml "Cafe Central" = "Cafe Central"
  ∧ escapeHtml (escapeHtml "Cafe Central") = escapeHtml "Cafe Central".
Proof.
  assert (escapeHtml "Cafe Central" = "Cafe Central") as H.
  { apply (proj1 (escapeHtml_plain "Cafe Central")).
    intros c Hc. vm_compute in Hc.
    repeat (apply elem_of_cons in Hc as [-> | Hc]; [reflexivity |]).
    by apply elem_of_nil in Hc. }
  split; [exact H |].
  apply (proj2 (escapeHtml_plain "Cafe Central")). exact H.
Defined.

(** ** The theme *)

(** X15.  The theme chosen with [toggleTheme] survives a reload: on the
    page loaded anew, [initTheme] sets the same theme on the body and,
    where the button exists, the same label on it.  A page with nothing
    stored, or with an empty item, comes up light. *)
Theorem theme_survives_reload :
  (∀ t : Theme,
     theme_body (initTheme (reload (toggleTheme t))) = theme_body (toggleTheme t)
     ∧ (themeBtnPresent t = true →
        themeBtn (initTheme (reload (toggleTheme t))) = themeBtn (toggleTheme t)))
  ∧ (∀ t : Theme,
       theme_stored t = None ∨ theme_stored t = Some EmptyString →
       theme_body (initTheme t) = Some "light").
Proof.
  split.
  - intros t. unfold reload, initTheme, toggleTheme, setLabel. simpl.
    destruct (theme_body t) as [b |]; simpl.
    + destruct (String.eqb b "dark"); simpl; split; try done;
        intros ->; reflexivity.
    + split; [done |]. intros ->. reflexivity.
  - intros t [H | H]; unfold initTheme; rewrite H; reflexivity.
Qed.

Lemma theme_survives_reload_witness :
  themeBtn (initTheme (reload (toggleTheme (mkTheme (Some "light") None true None))))
  = themeBtn (toggleTheme (mkTheme (Some "light") None true None))
  ∧ theme_body (initTheme (mkTheme None None true None)) = Some "light".
Proof.
  split.
  - apply (proj1 theme_survives_reload (mkTheme (Some "light") None true None)).
    reflexivity.
  - apply (proj2 theme_survives_reload (mkTheme None None true None)).
    left. reflexivity.
Defined.

(** X16.  Two toggles bring the body back to the theme it had exactly
    when that theme was dark or light; from any other value (a stored
    theme the script does not know, or none) the first toggle goes to
    dark and the theme alternates between dark and light from then on. *)
Theorem toggle_twice_restores (t : Theme) :
  (theme_body (toggleTheme (toggleTheme t)) = theme_body t
   ↔ theme_body t = Some "dark" ∨ theme_body t = Some "light")
  ∧ (theme_body t ≠ Some "dark" → theme_body (toggleTheme t) = Some "dark")
  ∧ theme_body (toggleTheme (toggleTheme (toggleTheme t)))
    = theme_body (toggleTheme t).
Proof.
  unfold toggleTheme. simpl.
  destruct (theme_body t) as [b |]; simpl.
  - destruct (String.eqb b "dark") eqn:E; simpl.
    + apply String.eqb_eq in E as ->. repeat split; auto. congruence.
    + apply String.eqb_neq in E. split; [| split; [done | done]].
      split.
      * intros H. right. congruence.
      * intros [H | H]; [congruence | exact (eq_sym H)].
  - split; [| split; [done | done]].
    split; [discriminate | intros [H | H]; discriminate].
Qed.

Lemma toggle_twice_restores_witness :
  theme_body (toggleTheme (mkTheme (Some "blue") (Some "blue") true None))
  = Some "dark".
Proof.
  apply (proj1 (proj2 (toggle_twice_restores
                         (mkTheme (Some "blue") (Some "blue") true None)))).
  discriminate.
Defined.

(** ** The proxy *)

(** X17.  Neither route of the proxy gets as far as calling Google
    unless the request has what the call needs and the server has a
    key: [/api/nearby] answers 400 when [lat] or [lng] is missing or
    empty, even on a server without a key, and 500 when only the key is
    missing; [/api/photo] does the same for [ref]. *)
Theorem proxy_guards :
  (∀ (key : string) (q : Query),
     nearbyGuard key q = None
     ↔ truthy (q_lat q) = true ∧ truthy (q_lng q) = true ∧ key ≠ EmptyString)
  ∧ (∀ (key : string) (q : Query) (up : Upstream),
       truthy (q_lat q) = false ∨ truthy (q_lng q) = false →
       reply_code (nearbyRoute key q up) = 400)
  ∧ (∀ (q : Query) (up : Upstream),
       truthy (q_lat q) = true → truthy (q_lng q) = true →
       nearbyRoute EmptyString q up
       = mkReply 500 (BError "Server is missing GOOGLE_API_KEY" None None))
  ∧ (∀ (key : string) (ref : option string),
       photoGuard key ref = None ↔ truthy ref = true ∧ key ≠ EmptyString)
  ∧ (∀ (key : string) (ref : option string),
       truthy ref = false → photoGuard key ref = Some (400, "Missing ref")).
Proof.
  split; [| split; [| split; [| split]]].
  - intros key q. unfold nearbyGuard.
    destruct (truthy (q_lat q)), (truthy (q_lng q)); simpl;
      try (split; [discriminate | intros (? & ? & ?); discriminate]).
    destruct (String.eqb key EmptyString) eqn:E.
    + apply String.eqb_eq in E. split; [discriminate | intros (_ & _ & ?); done].
    + apply String.eqb_neq in E. split; [done | done].
  - intros key q up H. unfold nearbyRoute, nearbyGuard.
    destruct H as [-> | ->]; simpl; [reflexivity |].
    by rewrite orb_true_r.
  - intros q up H1 H2. unfold nearbyRoute, nearbyGuard. by rewrite H1, H2.
  - intros key ref. unfold photoGuard.
    destruct (truthy ref); simpl;
      [| split; [discriminate | intros [? ?]; discriminate]].
    destruct (String.eqb key EmptyString) eqn:E.
    + apply String.eqb_eq in E. split; [discriminate | intros [_ ?]; done].
    + apply String.eqb_neq in E. split; done.
  - intros key ref H. unfold photoGuard. by rewrite H.
Qed.

Lemma proxy_guards_witness :
  reply_code (nearbyRoute "key" (mkQuery (Some "bar") (Some EmptyString) (Some "1") None)
                          (UpData None)) = 400
  ∧ nearbyRoute EmptyString query_here (UpData None)
    = mkReply 500 (BError "Server is missing GOOGLE_API_KEY" None None)
  ∧ photoGuard "key" None = Some (400, "Missing ref").
Proof.
  split; [| split].
  - apply (proj1 (proj2 proxy_guards)). left. reflexivity.
  - apply (proj1 (proj2 (proj2 proxy_guards))); reflexivity.
  - apply (proj2 (proj2 (proj2 (proj2 proxy_guards)))). reflexivity.
Defined.

(** X18.  When Google answers with data that carries no status, an
    empty one or ["OK"], the proxy replies 200 with one item per result,
    in Google's order and with Google's ids and ratings; an answer with
    any other status is replied to with 502, whatever results came with
    it; an answer without data, or a failed call without a status, with
    500. *)
Theorem proxy_reply (d : GData) :
  (refused d = false →
   nearbyAnswer (UpData (Some d))
   = mkReply 200 (BResults (map toItem (default [] (g_results d))))
   ∧ map (λ i, place_id (i_place i)) (map toItem (default [] (g_results d)))
     = map g_place_id (default [] (g_results d))
   ∧ map (λ i, rating (i_place i)) (map toItem (default [] (g_results d)))
     = map g_rating (default [] (g_results d)))
  ∧ (refused d = true → reply_code (nearbyAnswer (UpData (Some d))) = 502)
  ∧ reply_code (nearbyAnswer (UpData None)) = 500
  ∧ reply_code (nearbyAnswer (UpFail None)) = 500.
Proof.
  split; [| split; [| split; reflexivity]].
  - intros H. unfold nearbyAnswer. fold (refused d). rewrite H.
    split; [reflexivity |]. rewrite !map_map. split; reflexivity.
  - intros H. unfold nearbyAnswer. fold (refused d). by rewrite H.
Qed.

Lemma proxy_reply_witness :
  map (λ i, place_id (i_place i)) (map toItem (default [] (g_results google_ok)))
  = ["p-b"; "p-a"]
  ∧ reply_code (nearbyAnswer (UpData (Some google_zero))) = 502.
Proof.
  split.
  - apply (proj1 (proj2 (proj1 (proxy_reply google_ok) eq_refl))).
  - apply (proj1 (proj2 (proxy_reply google_zero))). reflexivity.
Defined.

Lemma orElse_nonempty (o : option string) (d : string) :
  d ≠ EmptyString → orElse o d ≠ EmptyString.
Proof.
  intros Hd. unfold orElse. destruct o as [v |]; [| done].
  destruct (String.eqb v EmptyString) eqn:E; [done |].
  by apply String.eqb_neq in E.
Qed.

Lemma clientSees_message (c : Z) (e m : string) (st : option string) :
  (200 <=? c) && (c <? 300) = false → m ≠ EmptyString →
  clientSees (mkReply c (BError e st (Some m))) = HttpError m.
Proof.
  intros Hc Hm. unfold clientSees. cbn [reply_code reply_body]. rewrite Hc.
  unfold orElse at 1. apply String.eqb_neq in Hm. by rewrite Hm.
Qed.

(** X19.  From Google to the user: when Google answers a search with a
    status other than ["OK"] (["ZERO_RESULTS"] for a search that finds
    nothing), the script shows "Failed:" with Google's error message,
    or "Unknown error from Google" when there is none, not the "no
    places" message; it stores nothing and clears [inFlight]. *)
Theorem google_refusal_shown_as_failure
  (gkey : string) (q : Query) (d : GData) (key : string) (now : Z) (s : App) :
  nearbyGuard gkey q = None →
  refused d = true →
  let reply := nearbyRoute gkey q (UpData (Some d)) in
  let s' := fetchDone key (clientSees reply) now s in
  clientSees reply
  = HttpError (orElse (g_error_message d) "Unknown error from Google")
  ∧ log s'
    = ERenderEmpty (FailedWith (orElse (g_error_message d)
                                       "Unknown error from Google")) :: log s
  ∧ storage s' = storage s
  ∧ inFlight s' = false.
Proof.
  intros Hg Hr reply s'.
  assert (clientSees reply
          = HttpError (orElse (g_error_message d) "Unknown error from Google"))
    as Hc.
  { subst reply. unfold nearbyRoute. rewrite Hg.
    unfold nearbyAnswer. fold (refused d). rewrite Hr.
    apply clientSees_message; [reflexivity |].
    by apply orElse_nonempty. }
  split; [exact Hc |]. subst s'. rewrite Hc.
  unfold fetchDone, setBusy. simpl. destruct (findBtn s); repeat split.
Qed.

Lemma google_refusal_shown_as_failure_witness :
  let s' := fetchDone "k" (clientSees (nearbyRoute "key" query_here
                                         (UpData (Some google_zero))))
                      1000500 page_busy in
  log s' = ERenderEmpty (FailedWith "Unknown error from Google") :: log page_busy
  ∧ storage s' = storage page_busy.
Proof.
  destruct (google_refusal_shown_as_failure "key" query_here google_zero
              "k" 1000500 page_busy) as (_ & H1 & H2 & _);
    [reflexivity | reflexivity |].
  split; [exact H1 | exact H2].
Defined.

Lemma encode_byte_safe (c : ascii) :
  forallb uriSafe
    (chars (if unreserved c then String c EmptyString else percentByte c))
  = true.
Proof. destruct c as [[] [] [] [] [] [] [] []]; reflexivity. Qed.

Lemma encodeURIComponent_safe (s : string) :
  forallb uriSafe (chars (encodeURIComponent s)) = true.
Proof.
  induction s as [| c s IH]; [reflexivity |].
  pose proof (encode_byte_safe c) as Hc. simpl.
  destruct (unreserved c).
  - change (chars (String c (encodeURIComponent s)))
      with (chars (String c EmptyString) ++ chars (encodeURIComponent s)).
    by rewrite forallb_app, Hc, IH.
  - by rewrite chars_app, forallb_app, Hc, IH.
Qed.

(** X20.  An item has a photo link exactly when Google gave a photo
    reference, and then both fields are set together.  The link is
    [/api/photo?ref=] + the encoded reference + [&max=520], and the
    encoded reference consists of unreserved characters and [%] only, so
    no [&], [=], [?], [#] or [/] in a reference can alter the query. *)
Theorem photo_link_well_formed :
  (∀ p : GPlace,
     (photo (i_place (toItem p)) = None ↔ truthy (g_photo_ref p) = false)
     ∧ (i_photoRef (toItem p) = None ↔ truthy (g_photo_ref p) = false))
  ∧ (∀ (p : GPlace) (ref : string),
       g_photo_ref p = Some ref → ref ≠ EmptyString →
       photo (i_place (toItem p))
       = Some ("/api/photo?ref=" +:+ encodeURIComponent ref +:+ "&max=520")
       ∧ i_photoRef (toItem p) = Some ref)
  ∧ (∀ (ref : string) (c : ascii),
       c ∈ chars (encodeURIComponent ref) →
       uriSafe c = true
       ∧ c ≠ "&"%char ∧ c ≠ "="%char ∧ c ≠ "?"%char
       ∧ c ≠ "#"%char ∧ c ≠ "/"%char).
Proof.
  split; [| split].
  - intros p. unfold toItem. simpl.
    destruct (truthy (g_photo_ref p)) eqn:E.
    + split; [split; discriminate |].
      destruct (g_photo_ref p); [split; discriminate | discriminate E].
    + split; split; done.
  - intros p ref Hp Hne. unfold toItem. simpl. rewrite Hp. simpl.
    apply String.eqb_neq in Hne. rewrite Hne. simpl. by split.
  - intros ref c Hin.
    pose proof (encodeURIComponent_safe ref) as H.
    rewrite forallb_forall in H. apply list_elem_of_In in Hin.
    specialize (H c Hin). split; [exact H |].
    repeat split; intros ->; discriminate.
Qed.

Lemma photo_link_well_formed_witness :
  photo (i_place (toItem gplace_a)) = Some "/api/photo?ref=ref%20a%26b&max=520"
  ∧ "r"%char ≠ "&"%char.
Proof.
  split.
  - apply (proj1 (proj1 (proj2 photo_link_well_formed) gplace_a "ref a&b"
                   eq_refl ltac:(discriminate))).
  - apply (proj2 (proj2 photo_link_well_formed) "r" "r"%char).
    vm_compute. apply list_elem_of_here.
Defined.

(** X21.  From Google to the cache: when the request passes the guards
    and Google answers with results and no refusing status, the script
    stores under the key of the search, and displays, a list that is in
    rating order and holds exactly the places Google returned, each id
    once for each time Google sent it. *)
Theorem google_results_reach_cache
  (gkey : string) (q : Query) (d : GData) (p : GPlace) (rs : list GPlace)
  (key : string) (now : Z) (s : App) :
  nearbyGuard gkey q = None →
  refused d = false →
  g_results d = Some (p :: rs) →
  let s' := fetchDone key (clientSees (nearbyRoute gkey q (UpData (Some d))))
                      now s in
  ∃ sorted,
    nearby (storage s') !! key = Some (mkRes (Some now) (Some sorted))
    ∧ log s' = EDisplay sorted :: log s
    ∧ StronglySorted rated_before sorted
    ∧ map place_id sorted ≡ₚ map g_place_id (p :: rs).
Proof.
  intros Hg Hr Hres s'.
  assert (clientSees (nearbyRoute gkey q (UpData (Some d)))
          = OkBody (Some (i_place (toItem p) :: map i_place (map toItem rs))))
    as Hc.
  { unfold nearbyRoute. rewrite Hg. unfold nearbyAnswer.
    fold (refused d). rewrite Hr, Hres. reflexivity. }
  subst s'. rewrite Hc.
  destruct (fetchDone_results key (i_place (toItem p))
              (map i_place (map toItem rs)) now s) as [Hst Hlog].
  exists (sortWith byRating (i_place (toItem p) :: map i_place (map toItem rs))).
  split; [| split; [| split]].
  - rewrite Hst. unfold setCachedResults. simpl nearby. apply lookup_insert_eq.
  - exact Hlog.
  - apply sortWith_sorted.
  - rewrite sortWith_perm. simpl. rewrite !map_map. reflexivity.
Qed.

Lemma google_results_reach_cache_witness :
  let s' := fetchDone "k" (clientSees (nearbyRoute "key" query_here
                                         (UpData (Some google_ok))))
                      1000500 page in
  ∃ sorted,
    nearby (storage s') !! "k" = Some (mkRes (Some 1000500) (Some sorted))
    ∧ log s' = EDisplay sorted :: log page
    ∧ StronglySorted rated_before sorted
    ∧ map place_id sorted ≡ₚ ["p-b"; "p-a"].
Proof.
  apply (google_results_reach_cache "key" query_here google_ok gplace_b [gplace_a]
           "k" 1000500 page); reflexivity.
Defined.

(** ** The rate of upstream calls *)

Lemma spaced_span (t lo : Z) (l : list Z) :
  spaced (t :: l) → Forall (λ u, lo ≤ u) (t :: l) →
  REQUEST_GAP_MS * Z.of_nat (length l) ≤ t - lo.
Proof.
  revert t. induction l as [| t2 l IH]; intros t Hs Hlo.
  - apply Forall_cons in Hlo as [Ht _]. simpl. lia.
  - destruct Hs as [Hgap Hs]. apply Forall_cons in Hgap as [Ht2 _].
    apply Forall_cons in Hlo as [_ Hlo].
    specialize (IH t2 Hs Hlo).
    change (length (t2 :: l)) with (S (length l)).
    unfold REQUEST_GAP_MS in *. lia.
Qed.

Lemma spaced_filter (P : Z → bool) (l : list Z) :
  spaced l → spaced (List.filter P l).
Proof.
  induction l as [| t l IH]; simpl; [done |].
  intros [Hgap Hs]. destruct (P t); simpl; [| by apply IH].
  split; [| by apply IH].
  apply Forall_forall. intros u Hu.
  apply list_elem_of_In, List.filter_In in Hu as [Hu _].
  apply list_elem_of_In in Hu.
  rewrite Forall_forall in Hgap. by apply Hgap.
Qed.

(** X22.  The quota bound: on any page, whatever the events, the
    upstream calls made at clock readings from [lo] to [hi] number at
    most [(hi - lo) / 2500 + 1], however many were made outside. *)
Theorem upstream_rate_bound (evs : list Event) (st : Storage) (type : string)
  (btn geo : bool) (s' : App) (lo hi : Z) :
  run evs (initial st type btn geo) = Some s' →
  lo ≤ hi →
  Z.of_nat (length (List.filter (inWindow lo hi) (fetchTimes (log s'))))
  ≤ (hi - lo) `div` 2500 + 1.
Proof.
  intros Hrun Hle.
  pose proof (upstream_calls_spaced _ _ _ _ _ _ Hrun) as Hs.
  apply (spaced_filter (inWindow lo hi)) in Hs.
  assert (Forall (λ u, lo ≤ u ≤ hi)
            (List.filter (inWindow lo hi) (fetchTimes (log s')))) as Hin.
  { apply Forall_forall. intros u Hu.
    apply list_elem_of_In, List.filter_In in Hu as [_ Hu].
    unfold inWindow in Hu. apply andb_true_iff in Hu as [H1 H2].
    apply Z.leb_le in H1, H2. lia. }
  destruct (List.filter (inWindow lo hi) (fetchTimes (log s'))) as [| t l].
  - simpl. pose proof (Z.div_pos (hi - lo) 2500). lia.
  - assert (REQUEST_GAP_MS * Z.of_nat (length l) ≤ t - lo) as Hspan.
    { apply spaced_span; [exact Hs |].
      eapply Forall_impl; [exact Hin |]. simpl. lia. }
    apply Forall_cons in Hin as [Ht _].
    change (length (t :: l)) with (S (length l)).
    unfold REQUEST_GAP_MS in Hspan.
    assert (Z.of_nat (length l) ≤ (hi - lo) `div` 2500)
      by (apply Z.div_le_lower_bound; lia).
    lia.
Qed.

Lemma upstream_rate_bound_witness :
  ∃ s', run two_searches page = Some s'
        ∧ fetchTimes (log s') = [1004000; 1001000]
        ∧ Z.of_nat (length (List.filter (inWindow 1002000 1004499)
                                        (fetchTimes (log s'))))
          ≤ (1004499 - 1002000) `div` 2500 + 1.
Proof.
  destruct (run two_searches page) as [s' |] eqn:Hrun;
    [| vm_compute in Hrun; discriminate].
  exists s'. split; [reflexivity |].
  split; [vm_compute in Hrun; injection Hrun as <-; reflexivity |].
  apply (upstream_rate_bound two_searches emptyStorage "cafe" true true s'
           1002000 1004499 Hrun).
  lia.
Defined.
